(** * ai-ops-studio: the dynamic task graph and the self-healing orchestrator

    A shallow embedding of the two classes that
    [services/self-evolution-engine/evolution-agent.ts] emits:
    [DynamicTaskGraph] (dependency-driven dispatch under a concurrency limit)
    and [SelfHealingOrchestrator] (failure prediction and a chain of recovery
    strategies).

    JavaScript numbers are read as exact rationals ([Q]); promises are
    identified by the order in which they are created; everything the two
    classes call but do not define (the agent executor, the workflow runner,
    the predictor, the model update) is an environment that the definitions
    take as an argument. *)

From Stdlib Require Import QArith Qabs Lqa Sorted SpecFloat.
From stdpp Require Import gmap strings list pretty.

Local Open Scope Z_scope.
Local Open Scope nat_scope.

(** ** DynamicTaskGraph *)

Module TaskGraph.

(** [interface TaskNode] *)
Record TaskNode := {
  id : string;
  agent : string;
  dependencies : list string;
  priority : Q;
  estimatedDuration : Q
}.

(** A promise is named by its creation index; a promise without an entry in
    the status map is still pending. *)
Definition promise := nat.

Inductive settlement := Fulfilled | Rejected.

#[global] Instance settlement_eq_dec : EqDecision settlement.
Proof. solve_decision. Defined.

(** The fields of the class.  [nodes] is a JS [Map]: insertion ordered, a
    second [set] of a key replaces the value where the key already sits. *)
Record DynamicTaskGraph := {
  nodes : list (string * TaskNode);
  executionPool : gmap string promise;
  maxConcurrency : nat
}.

Definition new_graph : DynamicTaskGraph :=
  {| nodes := []; executionPool := ∅; maxConcurrency := 16 |}.

Fixpoint map_set (k : string) (v : TaskNode) (m : list (string * TaskNode))
  : list (string * TaskNode) :=
  match m with
  | [] => [(k, v)]
  | (k', v') :: m' =>
      if decide (k' = k) then (k, v) :: m' else (k', v') :: map_set k v m'
  end.

Definition map_values (m : list (string * TaskNode)) : list TaskNode := m.*2.

Definition nodes_set (node : TaskNode) (g : DynamicTaskGraph) : DynamicTaskGraph :=
  {| nodes := map_set (id node) node (nodes g);
     executionPool := executionPool g;
     maxConcurrency := maxConcurrency g |}.

Definition pool_set (k : string) (p : promise) (g : DynamicTaskGraph)
  : DynamicTaskGraph :=
  {| nodes := nodes g;
     executionPool := <[k := p]> (executionPool g);
     maxConcurrency := maxConcurrency g |}.

Definition pool_has (g : DynamicTaskGraph) (dep : string) : bool :=
  bool_decide (is_Some (executionPool g !! dep)).

(** [workflow.forEach(node => this.nodes.set(node.id, node))] *)
Definition build (workflow : list TaskNode) (g : DynamicTaskGraph)
  : DynamicTaskGraph :=
  foldl (fun acc node => nodes_set node acc) g workflow.

(** The comparator [(a, b) => b.priority - a.priority]. *)
Definition compareFn (a b : TaskNode) : Q := (priority b - priority a)%Q.

Definition positive_q (q : Q) : bool := negb (Qle_bool q 0).

(** [Array.prototype.sort] is stable: an element moves behind another one
    only where the comparator is positive. *)
Fixpoint sort_insert (x : TaskNode) (l : list TaskNode) : list TaskNode :=
  match l with
  | [] => [x]
  | y :: ys =>
      if positive_q (compareFn x y) then y :: sort_insert x ys else x :: y :: ys
  end.

Definition sort (l : list TaskNode) : list TaskNode := foldr sort_insert [] l.

Definition deps_started (g : DynamicTaskGraph) (node : TaskNode) : bool :=
  forallb (pool_has g) (dependencies node).

Definition getReadyTasks (g : DynamicTaskGraph) : list TaskNode :=
  sort (List.filter (deps_started g) (map_values (nodes g))).

(** The locals of one [executeAsync] call, with the promises it created
    ([dispatched], oldest first) and what became of them ([status]). *)
Record Run := {
  graph : DynamicTaskGraph;
  ready : list TaskNode;
  executing : list promise;
  fresh : promise;
  status : gmap promise settlement;
  dispatched : list (promise * TaskNode)
}.

Definition with_ready (rdy : list TaskNode) (st : Run) : Run :=
  {| graph := graph st; ready := rdy; executing := executing st;
     fresh := fresh st; status := status st; dispatched := dispatched st |}.

(** One pass of the inner loop body: [executeTask(task)] hands the task to
    the agent executor and yields a pending promise, which is pushed on
    [executing] and stored in the pool under the task's id. *)
Definition dispatch (task : TaskNode) (st : Run) : Run :=
  let p := fresh st in
  {| graph := pool_set (id task) p (graph st);
     ready := ready st;
     executing := executing st ++ [p];
     fresh := S p;
     status := status st;
     dispatched := dispatched st ++ [(p, task)] |}.

(** [while (ready.length > 0 && executing.length < this.maxConcurrency)] *)
Fixpoint launch_ready (rdy : list TaskNode) (st : Run) : Run :=
  match rdy with
  | [] => with_ready [] st
  | task :: rest =>
      if bool_decide (length (executing st) < maxConcurrency (graph st))
      then launch_ready rest (dispatch task st)
      else with_ready rdy st
  end.

Definition launch (st : Run) : Run := launch_ready (ready st) st.

(** What the environment does while [executeAsync] is suspended in one
    [await]: the promises that settle, in the order in which they do. *)
Definition settling := list (promise * settlement).

Definition is_pending (st : Run) (p : promise) : bool :=
  bool_decide (status st !! p = None).

Definition settle (ev : settling) (st : Run) : Run :=
  {| graph := graph st; ready := ready st; executing := executing st;
     fresh := fresh st;
     status :=
       foldl (fun m '(p, s) =>
                if bool_decide (p < fresh st) && bool_decide (m !! p = None)
                then <[p := s]> m else m)
             (status st) ev;
     dispatched := dispatched st |}.

(** [Promise.race(executing)]: a promise of the array that has already
    settled wins, the earliest in the array first; otherwise the first of the
    array to settle during the wait.  [None]: nothing of the array ever
    settles and the caller stays suspended. *)
Definition race (ev : settling) (st : Run) : option (promise * settlement) :=
  match head (omap (fun p => pair p <$> status st !! p) (executing st)) with
  | Some w => Some w
  | None => List.find (fun '(p, _) => bool_decide (p ∈ executing st)) ev
  end.

(** What [executing.indexOf(completed)] compares by strict equality: the
    array holds promise objects, [completed] is the value that the winning
    promise was fulfilled with (a promise is never fulfilled with a promise). *)
Inductive operand :=
| promise_object (p : promise)
| fulfilment_value (p : promise).

#[global] Instance operand_eq_dec : EqDecision operand.
Proof. solve_decision. Defined.

Fixpoint indexOf_from (i : Z) (l : list operand) (x : operand) : Z :=
  match l with
  | [] => (-1)%Z
  | y :: l' => if decide (y = x) then i else indexOf_from (i + 1)%Z l' x
  end.

Definition indexOf (l : list operand) (x : operand) : Z := indexOf_from 0 l x.

(** [array.splice(index, 1)] *)
Definition splice1 (index : Z) (l : list promise) : list promise :=
  let len := Z.of_nat (length l) in
  let start :=
    if (index <? 0)%Z then Z.max (len + index) 0 else Z.min index len in
  take (Z.to_nat start) l ++ drop (S (Z.to_nat start)) l.

Inductive outcome :=
| Returned (st : Run)      (* the loop condition failed: the call returns *)
| Thrown (st : Run)        (* the awaited race rejected *)
| Suspended (st : Run)     (* the awaited race never settles *)
| Running (st : Run).      (* still in the loop after every given wait *)

Definition final (o : outcome) : Run :=
  match o with
  | Returned st | Thrown st | Suspended st | Running st => st
  end.

(** The rest of the outer loop body, from the [await] on. *)
Definition await_race (ev : settling) (st : Run) : Run + outcome :=
  let st' := settle ev st in
  match race ev st with
  | None => inr (Suspended st)
  | Some (_, Rejected) => inr (Thrown st')
  | Some (winner, Fulfilled) =>
      let completed := fulfilment_value winner in
      let index := indexOf (promise_object <$> executing st') completed in
      inl {| graph := graph st';
             ready := ready st' ++ getReadyTasks (graph st');
             executing := splice1 index (executing st');
             fresh := fresh st';
             status := status st';
             dispatched := dispatched st' |}
  end.

Definition loop_cond (st : Run) : bool :=
  bool_decide (0 < length (ready st)) || bool_decide (0 < length (executing st)).

(** [while (ready.length > 0 || executing.length > 0)], one [settling] per
    wait. *)
Fixpoint run_loop (sched : list settling) (st : Run) : outcome :=
  if loop_cond st then
    match sched with
    | [] => Running st
    | ev :: sched' =>
        match await_race ev (launch st) with
        | inl st' => run_loop sched' st'
        | inr o => o
        end
    end
  else Returned st.

Definition enter (workflow : list TaskNode) (g : DynamicTaskGraph) : Run :=
  let g' := build workflow g in
  {| graph := g'; ready := getReadyTasks g'; executing := [];
     fresh := 0; status := ∅; dispatched := [] |}.

Definition executeAsync (sched : list settling) (workflow : list TaskNode)
  (g : DynamicTaskGraph) : outcome :=
  run_loop sched (enter workflow g).

(** Dispatched and not yet settled. *)
Definition running (st : Run) : list (promise * TaskNode) :=
  List.filter (fun '(p, _) => is_pending st p) (dispatched st).

Definition completed (st : Run) (k : string) : bool :=
  match executionPool (graph st) !! k with
  | Some p => bool_decide (status st !! p = Some Fulfilled)
  | None => false
  end.

(** A dependency edge of the graph, and the nodes that lie on a cycle. *)
Definition depends (g : DynamicTaskGraph) (a b : string) : Prop :=
  ∃ node, (a, node) ∈ nodes g ∧ b ∈ dependencies node.

Inductive reaches (g : DynamicTaskGraph) : string → string → Prop :=
| reaches_edge a b : depends g a b → reaches g a b
| reaches_step a b c : depends g a b → reaches g b c → reaches g a c.

Definition on_cycle (g : DynamicTaskGraph) (a : string) : Prop := reaches g a a.

(** Keys are the ids of their values, and no key occurs twice. *)
Definition well_keyed (m : list (string * TaskNode)) : Prop :=
  NoDup m.*1 ∧ ∀ k node, (k, node) ∈ m → id node = k.

(** [calculateBayesianPriority] in exact arithmetic; the two lookups it
    makes are not defined by the class and are taken as given.  The code
    rounds after every operation, so an equation proved of this definition
    need not hold of the code; that the score grows with its inputs does,
    since rounding keeps [<=]. *)
Section Scorer.
Variable getHistoricalSuccessRate : string → Q.
Variable getResourceAvailability : Q.

End Scorer.

(** The numbers of the language are IEEE 754 binary64 values, and [*], [/]
    and [+] round to the nearest value, ties to even. *)
Definition binary64_prec : Z := 53.
Definition binary64_emax : Z := 1024.

Definition number : Type := spec_float.

Definition mul : number → number → number := SFmul binary64_prec binary64_emax.
Definition add : number → number → number := SFadd binary64_prec binary64_emax.
Definition div : number → number → number := SFdiv binary64_prec binary64_emax.

Definition of_Z (z : Z) : number :=
  binary_normalize binary64_prec binary64_emax z 0 false.

(** A literal is the value nearest to the decimal written: for [0.4] and
    [0.2] the rounded quotients 4 / 10 and 2 / 10. *)
Definition literal_0_4 : number := Eval vm_compute in div (of_Z 4) (of_Z 10).
Definition literal_0_2 : number := Eval vm_compute in div (of_Z 2) (of_Z 10).
Definition literal_100 : number := Eval vm_compute in of_Z 100.

(** The rational a finite value stands for. *)
Definition to_Q (x : number) : Q :=
  match x with
  | S754_finite s m e =>
      (inject_Z (if s then Z.neg m else Z.pos m) * Qpower 2 e)%Q
  | _ => 0%Q
  end.

(** [calculateBayesianPriority] on the three numbers it reads: the answer
    of [getHistoricalSuccessRate(task.agent)], [task.priority] and the
    answer of [getResourceAvailability()]. *)
Definition calculateBayesianPriority_binary64
  (historicalSuccess priority resourceAvailability : number) : number :=
  let urgency := div priority literal_100 in
  add (add (mul historicalSuccess literal_0_4) (mul urgency literal_0_4))
      (mul resourceAvailability literal_0_2).

Definition ids (l : list (promise * TaskNode)) : list string :=
  (fun e => id e.2) <$> l.

(** A set of ids that the run keeps out of the pool, out of [ready] and out of
    the dispatched tasks. *)
Definition avoids (S : string → Prop) (st : Run) : Prop :=
  (∀ k, S k → executionPool (graph st) !! k = None)
  ∧ (∀ t, t ∈ ready st → ¬ S (id t))
  ∧ (∀ e, e ∈ dispatched st → ¬ S (id e.2)).

(** Every node of the set waits for another node of the set. *)
Definition closed (S : string → Prop) (g : DynamicTaskGraph) : Prop :=
  ∀ node, node ∈ map_values (nodes g) → S (id node) →
          ∃ dep, dep ∈ dependencies node ∧ S dep.

(** A node without dependencies; agents that never fail. *)
Definition has_root (g : DynamicTaskGraph) : Prop :=
  ∃ node, node ∈ map_values (nodes g) ∧ dependencies node = [].

Definition only_fulfilled (m : gmap promise settlement) : Prop :=
  ∀ p s, m !! p = Some s → s = Fulfilled.

Definition no_rejection (sched : list settling) : Prop :=
  Forall (Forall (fun e => e.2 = Fulfilled)) sched.

(** Example workflows. *)
Definition task (k : string) (deps : list string) (pr : Z) : TaskNode :=
  {| id := k; agent := "agent-" +:+ k; dependencies := deps;
     priority := inject_Z pr; estimatedDuration := 1 |}.

Definition single : list TaskNode := [task "A" [] 5].

Definition fork : list TaskNode :=
  [task "A" [] 9; task "A2" [] 8; task "B" ["A"] 7].

Definition cycle3 : list TaskNode :=
  [task "A" ["C"] 5; task "B" ["A"] 5; task "C" ["B"] 5].

Definition cycle3_and_free : list TaskNode := cycle3 ++ [task "D" [] 5].

Definition independent (n : nat) : list TaskNode :=
  (fun i => task ("t" +:+ pretty i) [] 5) <$> seq 1 n.

(** The tasks of a list that carry a given priority, in the order of the
    list. *)
Definition with_priority (q : Q) (l : list TaskNode) : list TaskNode :=
  List.filter (fun t => Qeq_bool (priority t) q) l.

(** Every dependency of an entry has an entry before it. *)
Definition dependencies_first (d : list (promise * TaskNode)) : Prop :=
  ∀ l1 e l2, d = l1 ++ e :: l2 →
             Forall (fun dep => dep ∈ ids l1) (dependencies e.2).

(** Invariants of the loop: the array within the limit; the pool filled by
    dispatches only, dependencies first. *)
Definition within_limit (limit : nat) (st : Run) : Prop :=
  maxConcurrency (graph st) = limit ∧ length (executing st) ≤ limit.

Definition started_first (st : Run) : Prop :=
  (∀ k, is_Some (executionPool (graph st) !! k) → k ∈ ids (dispatched st))
  ∧ dependencies_first (dispatched st).

Definition deps_in_pool (g : DynamicTaskGraph) (t : TaskNode) : Prop :=
  Forall (fun dep => is_Some (executionPool g !! dep)) (dependencies t).

Definition started_first_ready (st : Run) : Prop :=
  started_first st ∧ Forall (deps_in_pool (graph st)) (ready st).

(** The nodes that wait for an id, with the id itself. *)
Definition waits_for (g : DynamicTaskGraph) (d k : string) : Prop :=
  k = d ∨ ∃ node, (k, node) ∈ nodes g ∧ d ∈ dependencies node.

(** The node a workflow declares last under an id. *)
Definition last_declared (k : string) (workflow : list TaskNode)
  : option TaskNode :=
  last (List.filter (fun n => bool_decide (id n = k)) workflow).

(** The ids of a workflow in the order of their first declaration. *)
Definition first_declared (workflow : list TaskNode) : list string :=
  reverse (remove_dups (reverse (id <$> workflow))).

End TaskGraph.


(** ** SelfHealingOrchestrator *)

Module Healing.

(** JavaScript values, as far as the orchestrator inspects them. *)
Inductive value :=
| VUndefined
| VNull
| VBool (b : bool)
| VNumber (q : Q)
| VString (s : string)
| VObject (ref : nat).

Definition truthy (v : value) : bool :=
  match v with
  | VUndefined | VNull => false
  | VBool b => b
  | VNumber q => negb (Qeq_bool q 0)
  | VString s => bool_decide (0 < String.length s)
  | VObject _ => true
  end.

(** The execution context: the two properties the strategies read. *)
Record Context := {
  checkpoints : list value;
  currentStep : value
}.

(** [interface FailurePrediction] *)
Record FailurePrediction := {
  probability : value;
  expectedFailurePoint : value;
  recommendedAction : value
}.

(** Everything the class calls without defining it.  [predictor] stands for
    the path from [extractFeatures] through [failurePredictor.predict] to
    the first element of [prediction.data()]. *)
Inductive call :=
| sleep (ms : Z)
| executeWorkflow (workflow : value)
| executeFromCheckpoint (workflow lastCheckpoint : value)
| findAlternatePath (workflow step : value)
| executeAlternatePath (workflow alternatePath : value)
| executeWithDegradedFeatures (workflow : value) (context : Context)
| updateModel (context : Context) (success : bool) (strategy : option string)
| predictor (context : Context)
| identifyFailurePoint (context : Context) (probability : value)
| determineAction (probability : value)
| applyPreventiveMeasures (prediction : FailurePrediction)
| executeWithMonitoring (workflow : value) (context : Context)
| createExecutionContext (workflow : value).

(** How a call ends: with a value, with a thrown value, or (an awaited promise
    that never settles) not at all. *)
Inductive result (A : Type) :=
| Ok (a : A)
| Throw (e : value)
| Hang.
Arguments Ok {A} a.
Arguments Throw {A} e.
Arguments Hang {A}.

Definition history := list call.

(** The lines the class writes with [console.log]. *)
Inductive line :=
| HighFailureProbability
| FailureDetected
| Attempting (name : string)
| Successful (name : string)
| FailedTryingNext (name : string).

Record World := {
  calls : history;
  console : list line
}.

(** Computations over a state, with exceptions. *)
Definition SR (S A : Type) : Type := S → result A * S.

#[global] Instance sr_ret {S} : MRet (SR S) := fun A a s => (Ok a, s).

#[global] Instance sr_bind {S} : MBind (SR S) := fun A B f m s =>
  match m s with
  | (Ok a, s') => f a s'
  | (Throw e, s') => (Throw e, s')
  | (Hang, s') => (Hang, s')
  end.

Definition throw {S A} (e : value) : SR S A := fun s => (Throw e, s).

Definition try_catch {S A} (body : SR S A) (handler : value → SR S A) : SR S A :=
  fun s =>
    match body s with
    | (Throw e, s') => handler e s'
    | other => other
    end.

(** Code that only talks to its collaborators, and code that also logs. *)
Definition H (A : Type) : Type := SR history A.
Definition M (A : Type) : Type := SR World A.

Definition lift {A} (m : H A) : M A := fun w =>
  let '(r, h) := m (calls w) in (r, {| calls := h; console := console w |}).

Definition log (l : line) : M unit := fun w =>
  (Ok tt, {| calls := calls w; console := console w ++ [l] |}).

Definition strategy : Type := value → Context → value → H value.

Section Orchestrator.

(** The environment: what a call answers, given the calls made so far. *)
Variable respond : history → call → result value.

Definition ext (c : call) : H value := fun h => (respond h c, h ++ [c]).

Definition maxRetries : nat := 5.

(** The [for] loop of the retry strategy, [left] passes before
    [i < maxRetries] fails. *)
Fixpoint retry_loop (left i : nat) (workflow : value) : H value :=
  match left with
  | 0 => mret VUndefined
  | S left' =>
      _ ← ext (sleep (2 ^ Z.of_nat i * 1000));
      try_catch (ext (executeWorkflow workflow))
        (fun e => if bool_decide (i = maxRetries - 1) then throw e
                  else retry_loop left' (S i) workflow)
  end.

Definition exponential_backoff_retry : strategy := fun workflow context error =>
  retry_loop maxRetries 0 workflow.

Definition checkpoint_rollback : strategy := fun workflow context error =>
  let lastCheckpoint := List.last (checkpoints context) VUndefined in
  ext (executeFromCheckpoint workflow lastCheckpoint).

Definition alternate_path_routing : strategy := fun workflow context error =>
  alternatePath ← ext (findAlternatePath workflow (currentStep context));
  ext (executeAlternatePath workflow alternatePath).

Definition graceful_degradation : strategy := fun workflow context error =>
  ext (executeWithDegradedFeatures workflow context).

Definition registerRecoveryStrategies (registry : gmap string strategy)
  : gmap string strategy :=
  <["graceful_degradation" := graceful_degradation]>
    (<["alternate_path_routing" := alternate_path_routing]>
       (<["checkpoint_rollback" := checkpoint_rollback]>
          (<["exponential_backoff_retry" := exponential_backoff_retry]>
             registry))).

Section Registered.

(** [this.recoveryStrategies] *)
Variable recoveryStrategies : gmap string strategy.

(** [this.recoveryStrategies.get(name)?.(workflow, context, error)] *)
Definition invoke (name : string) (workflow : value) (context : Context)
  (error : value) : H value :=
  match recoveryStrategies !! name with
  | Some f => f workflow context error
  | None => mret VUndefined
  end.

(** The body of the [for] loop of [autoRecover]: [Some] is the value the
    function returns, [None] lets the loop go on. *)
Definition attempt (name : string) (workflow : value) (context : Context)
  (error : value) : M (option value) :=
  try_catch
    (_ ← log (Attempting name);
     recovered ← lift (invoke name workflow context error);
     if truthy recovered then
       _ ← log (Successful name);
       _ ← lift (ext (updateModel context true (Some name)));
       mret (Some recovered)
     else mret None)
    (fun recoveryError => _ ← log (FailedTryingNext name); mret None).

Fixpoint autoRecover_over (l : list (string * Q)) (error workflow : value)
  (context : Context) : M value :=
  match l with
  | [] => mret VNull
  | (name, weight) :: rest =>
      r ← attempt name workflow context error;
      match r with
      | Some recovered => mret recovered
      | None => autoRecover_over rest error workflow context
      end
  end.

Definition strategies : list (string * Q) :=
  [("exponential_backoff_retry", 0.4%Q);
   ("checkpoint_rollback", 0.3%Q);
   ("alternate_path_routing", 0.2%Q);
   ("graceful_degradation", 0.1%Q)].

Definition autoRecover (error workflow : value) (context : Context)
  : M value :=
  autoRecover_over strategies error workflow context.

(** [prediction.probability > 0.7]; the probability is an element of a
    typed array, a number or [undefined]. *)
Definition exceeds (v : value) (threshold : Q) : bool :=
  match v with
  | VNumber q => negb (Qle_bool q threshold)
  | _ => false
  end.

Definition predictFailures (context : Context) : H FailurePrediction :=
  p ← ext (predictor context);
  point ← ext (identifyFailurePoint context p);
  action ← ext (determineAction p);
  mret {| probability := p; expectedFailurePoint := point;
          recommendedAction := action |}.

(** The [catch] block of [executeWithSelfHealing]. *)
Definition recover_or_rethrow (workflow : value) (context : Context)
  (error : value) : M value :=
  _ ← log FailureDetected;
  recovered ← autoRecover error workflow context;
  if negb (truthy recovered) then throw error else mret recovered.

(** The [try] block of [executeWithSelfHealing], and the [try] statement
    with its [catch] block: the function from its second statement on, with
    the context its first statement made. *)
Definition monitored_execution (workflow : value)
  (executionContext : Context) : M value :=
  prediction ← lift (predictFailures executionContext);
  _ ← (if exceeds (probability prediction) 0.7%Q then
         _ ← log HighFailureProbability;
         _ ← lift (ext (applyPreventiveMeasures prediction));
         mret tt
       else mret tt);
  result ← lift (ext (executeWithMonitoring workflow executionContext));
  _ ← lift (ext (updateModel executionContext true None));
  mret result.

Definition executeWithSelfHealing (workflow : value)
  (executionContext : Context) : M value :=
  try_catch (monitored_execution workflow executionContext)
            (recover_or_rethrow workflow executionContext).

(** [createExecutionContext] is not defined by the class: what it answers
    is part of the environment.  It is called before the [try] statement,
    so nothing catches what it throws. *)
Variable makeContext : history → value → result Context.

Definition newContext (workflow : value) : H Context := fun h =>
  (makeContext h workflow, h ++ [createExecutionContext workflow]).

(** [executeWithSelfHealing(workflow)], from its first statement. *)
Definition executeWithSelfHealing_call (workflow : value) : M value :=
  executionContext ← lift (newContext workflow);
  executeWithSelfHealing workflow executionContext.

(** The strategies of a list fail one after the other, taking the calls
    from [h] to [h']: each one throws or returns a falsy value. *)
Inductive all_fail (workflow : value) (context : Context) (error : value)
  : list string → history → history → Prop :=
| all_fail_nil h : all_fail workflow context error [] h h
| all_fail_throw name names h h' h'' e :
    invoke name workflow context error h = (Throw e, h') →
    all_fail workflow context error names h' h'' →
    all_fail workflow context error (name :: names) h h''
| all_fail_falsy name names h h' h'' v :
    invoke name workflow context error h = (Ok v, h') →
    truthy v = false →
    all_fail workflow context error names h' h'' →
    all_fail workflow context error (name :: names) h h''.

(** The strategies the console shows as attempted, oldest first. *)
Definition attempted (c : list line) : list string :=
  omap (fun l => match l with Attempting name => Some name | _ => None end) c.

End Registered.

(** The calls of the first [n] attempts of the retry strategy, and how
    attempt [i] ends when the strategy was entered at [h0]. *)
Definition retry_calls (workflow : value) (n : nat) : history :=
  i ← seq 0 n; [sleep (2 ^ Z.of_nat i * 1000); executeWorkflow workflow].

Definition attempt_outcome (workflow : value) (h0 : history) (i : nat)
  : result value :=
  respond (h0 ++ retry_calls workflow i ++ [sleep (2 ^ Z.of_nat i * 1000)])
          (executeWorkflow workflow).

Definition sleeps_return : Prop :=
  ∀ h ms, respond h (sleep ms) = Ok VUndefined.

End Orchestrator.

Definition start : World := {| calls := []; console := [] |}.

Definition names : list string := Eval cbv in (strategies.*1).

(** Example environments.  [flaky n]: the workflow fails until it has been
    tried [n] times; everything else the strategies call is unavailable. *)
Definition tries (h : history) : nat :=
  length (List.filter (fun c => match c with executeWorkflow _ => true | _ => false end) h).

Definition flaky (n : nat) (h : history) (c : call) : result value :=
  match c with
  | sleep _ | updateModel _ _ _ => Ok VUndefined
  | executeWorkflow _ =>
      if bool_decide (n ≤ tries h) then Ok (VObject 1)
      else Throw (VString "task failed")
  | executeWithMonitoring _ _ => Throw (VString "task failed")
  | predictor _ => Ok (VNumber 0.1)
  | identifyFailurePoint _ _ => Ok (VString "unknown")
  | determineAction _ => Ok (VString "retry")
  | _ => Throw (VString "unavailable")
  end.

(** The predictor is down; the workflow is healthy, whichever way it is
    executed, and every other collaborator answers. *)
Definition predictor_down (h : history) (c : call) : result value :=
  match c with
  | predictor _ => Throw (VString "PredictorUnavailableError")
  | executeWorkflow _ | executeWithMonitoring _ _
  | executeFromCheckpoint _ _ | executeAlternatePath _ _
  | executeWithDegradedFeatures _ _ => Ok (VObject 7)
  | findAlternatePath _ _ => Ok (VString "detour")
  | identifyFailurePoint _ _ => Ok (VString "unknown")
  | determineAction _ => Ok (VString "retry")
  | sleep _ | updateModel _ _ _ | applyPreventiveMeasures _
  | createExecutionContext _ => Ok VUndefined
  end.

(** Every strategy recovers the workflow; the model cannot be updated. *)
Definition model_down (h : history) (c : call) : result value :=
  match c with
  | updateModel _ _ _ => Throw (VString "model store unreachable")
  | executeWorkflow _ => Ok (VObject 1)
  | executeFromCheckpoint _ _ => Ok (VObject 2)
  | findAlternatePath _ _ => Ok (VString "detour")
  | executeAlternatePath _ _ => Ok (VObject 3)
  | executeWithDegradedFeatures _ _ => Ok (VObject 4)
  | sleep _ => Ok VUndefined
  | _ => Throw (VString "unavailable")
  end.

(** The first strategy fails, rolling back to the last checkpoint works. *)
Definition rollback_works (h : history) (c : call) : result value :=
  match c with
  | sleep _ | updateModel _ _ _ => Ok VUndefined
  | executeFromCheckpoint _ _ => Ok (VObject 2)
  | _ => Throw (VString "unavailable")
  end.

(** The milliseconds slept in a history. *)
Definition slept (h : history) : Z :=
  foldr (fun c acc => match c with sleep ms => (ms + acc)%Z | _ => acc end) 0%Z h.

(** How [autoRecover] can end: with [null], with a truthy value, or never. *)
Definition recovery_result (r : result value) : Prop :=
  r = Ok VNull ∨ (∃ v, r = Ok v ∧ truthy v = true) ∨ r = Hang.

Definition context0 : Context := {| checkpoints := []; currentStep := VUndefined |}.

(** [createExecutionContext] at work, and out of order. *)
Definition fresh_context (h : history) (workflow : value) : result Context :=
  Ok context0.

Definition no_context (h : history) (workflow : value) : result Context :=
  Throw (VString "invalid workflow").

End Healing.


(** ** SelfEvolutionEngine *)

Module Engine.
Import Healing.

(** [interface BenchmarkResult] *)
Record BenchmarkResult := {
  category : string;
  currentScore : Q;
  industryLeading : Q;
  gap : Q;
  recommendations : list string;
  autoFixable : bool
}.

Inductive TaskType := architecture | performance | security | scalability.

Inductive Priority := critical | high | medium | low.

(** [interface EvolutionTask] *)
Record EvolutionTask := {
  id : string;
  type : TaskType;
  priority : Priority;
  description : string;
  implementation : string;
  testStrategy : string
}.

(** [String.prototype.includes] *)
Fixpoint includes (s sub : string) : bool :=
  if String.prefix sub s then true
  else match s with
       | EmptyString => false
       | String _ s' => includes s' sub
       end.

Definition categorizeTask (category : string) : TaskType :=
  if includes category "performance" then performance
  else if includes category "security" then security
  else if includes category "scale" then scalability
  else architecture.

Definition greater (a b : Q) : bool := negb (Qle_bool a b).

Definition calculatePriority (gap : Q) : Priority :=
  if greater gap 50 then critical
  else if greater gap 30 then high
  else if greater gap 15 then medium
  else low.

(** [getPriorityScore] on the four literals of [EvolutionTask['priority']],
    the only arguments it is called with. *)
Definition getPriorityScore (priority : Priority) : Z :=
  match priority with
  | critical => 4
  | high => 3
  | medium => 2
  | low => 1
  end.

Definition analyzePerformance (output : string) : bool := includes output "PASS".

(** What the engine does to the outside, in the order in which it does it. *)
Inductive call :=
| execSync (command : string)
| mkdir (root path : string)
| writeFile (root path code : string)
| messagesCreate (benchmark : BenchmarkResult)
| dateNow
| benchmarkAgainstIndustry
| sleep (ms : Z).

Definition history := list call.

(** The outside.  [exec] is the shell ([child_process.execSync], answering
    with the output of the command); [fsys] the two file system calls of
    [applyChanges]; [message] the answer of the Anthropic client to the
    prompt made from a benchmark, [Some] text where the first content block
    is text; [clock] is [Date.now()]; [benchmarks] stands for
    [benchmarkAgainstIndustry], which only reads the disk and asks a model;
    [extractCodeBlocks] is the regular expression scan of that name, which
    is not modelled; [repoRoot] is [process.cwd()]. *)
Record Outside := {
  exec : history → string → result string;
  fsys : history → call → result unit;
  message : history → BenchmarkResult → result (option string);
  clock : history → N;
  benchmarks : history → result (list BenchmarkResult);
  extractCodeBlocks : string → list (string * string);
  repoRoot : string
}.

Definition E (A : Type) : Type := SR history A.

Definition quote : string := String (Ascii.ascii_of_nat 34) EmptyString.

Section Engine.
Variable out : Outside.

Definition run (command : string) : E string :=
  fun h => (exec out h command, h ++ [execSync command]).

Definition file (c : call) : E unit := fun h => (fsys out h c, h ++ [c]).

(** [sleep]: a timer, which always fires. *)
Definition wait (ms : Z) : E unit := fun h => (Ok tt, h ++ [sleep ms]).

Definition ask (benchmark : BenchmarkResult) : E (option string) :=
  fun h => (message out h benchmark, h ++ [messagesCreate benchmark]).

Definition now : E N := fun h => (Ok (clock out h), h ++ [dateNow]).

Definition benchmark : E (list BenchmarkResult) :=
  fun h => (benchmarks out h, h ++ [benchmarkAgainstIndustry]).

Definition benchmarkInterval : Z := 3600000.

Definition createEvolutionTask (benchmark : BenchmarkResult) : E EvolutionTask :=
  response ← ask benchmark;
  let content := default EmptyString response in
  t ← now;
  mret {| id := "evolution_" +:+ pretty t;
          type := categorizeTask (category benchmark);
          priority := calculatePriority (gap benchmark);
          description := "Upgrade " +:+ category benchmark;
          implementation := content;
          testStrategy := "Generated from AI" |}.

Definition fixable (benchmark : BenchmarkResult) : bool :=
  greater (gap benchmark) 20 && autoFixable benchmark.

(** The [for] loop of [generateEvolutionTasks]. *)
Fixpoint collect (bs : list BenchmarkResult) : E (list EvolutionTask) :=
  match bs with
  | [] => mret []
  | benchmark :: rest =>
      if fixable benchmark then
        task ← createEvolutionTask benchmark;
        tasks ← collect rest;
        mret (task :: tasks)
      else collect rest
  end.

(** The comparator of the final sort, and the stable sort. *)
Definition byScore (a b : EvolutionTask) : Z :=
  (getPriorityScore (priority b) - getPriorityScore (priority a))%Z.

Fixpoint sort_insert (x : EvolutionTask) (l : list EvolutionTask)
  : list EvolutionTask :=
  match l with
  | [] => [x]
  | y :: ys => if (0 <? byScore x y)%Z then y :: sort_insert x ys
               else x :: y :: ys
  end.

Definition sort (l : list EvolutionTask) : list EvolutionTask :=
  foldr sort_insert [] l.

Definition generateEvolutionTasks (bs : list BenchmarkResult)
  : E (list EvolutionTask) :=
  tasks ← collect bs;
  mret (sort tasks).

Definition createBranch (name : string) : E unit :=
  _ ← run ("git checkout -b " +:+ name); mret tt.

Definition commitChanges (task : EvolutionTask) (branch : string) : E unit :=
  _ ← run "git add .";
  _ ← run ("git commit -m " +:+ quote +:+ "Auto-evolution: "
           +:+ description task +:+ quote);
  _ ← run ("git push origin " +:+ branch);
  mret tt.

Definition runTests : E bool :=
  try_catch (_ ← run "npm test"; mret true) (fun _ => mret false).

Definition rollbackBranch (branch : string) : E unit :=
  _ ← run "git checkout main";
  _ ← run ("git branch -D " +:+ branch);
  mret tt.

Definition rollback : E unit :=
  _ ← run "git reset --hard HEAD"; mret tt.

Fixpoint write_blocks (blocks : list (string * string)) : E unit :=
  match blocks with
  | [] => mret tt
  | (path, code) :: rest =>
      _ ← file (mkdir (repoRoot out) path);
      _ ← file (writeFile (repoRoot out) path code);
      write_blocks rest
  end.

Definition applyChanges (task : EvolutionTask) : E unit :=
  write_blocks (extractCodeBlocks out (implementation task)).

(** The [try] block of the loop of [executeEvolutionTasks]: the branch,
    then the rest. *)
Definition on_branch (task : EvolutionTask) (branchName : string) : E unit :=
  _ ← applyChanges task;
  testsPassed ← runTests;
  if testsPassed : bool then commitChanges task branchName
  else rollbackBranch branchName.

Definition evolve (task : EvolutionTask) : E unit :=
  let branchName := "auto-evolution/" +:+ id task in
  _ ← createBranch branchName;
  on_branch task branchName.

Fixpoint executeEvolutionTasks (tasks : list EvolutionTask) : E unit :=
  match tasks with
  | [] => mret tt
  | task :: rest =>
      _ ← try_catch (evolve task) (fun error => mret tt);
      executeEvolutionTasks rest
  end.

Definition validateEvolutions : E bool :=
  try_catch
    (_ ← run "npm run test";
     _ ← run "npm run test:integration";
     perfResult ← run "npm run benchmark";
     let perfImproved := analyzePerformance perfResult in
     _ ← run "npm audit --audit-level=high";
     mret perfImproved)
    (fun error => mret false).

(** [deployCanary] only writes to the console. *)
Definition deployCanary (percentage : Q) : E unit := mret tt.

Definition canaryHealthy : E bool := mret true.

Definition deployProduction : E unit :=
  _ ← run "npm run deploy:prod"; mret tt.

Definition progressiveDeployment : E unit :=
  _ ← deployCanary 0.01%Q;
  _ ← wait 300000;
  healthy ← canaryHealthy;
  if healthy : bool then
    _ ← deployCanary 0.10%Q;
    _ ← wait 300000;
    healthy' ← canaryHealthy;
    if healthy' : bool then deployProduction else mret tt
  else rollback.

(** Steps 1 to 3 of the cycle, and the [try] block. *)
Definition prepare : E unit :=
  bs ← benchmark;
  tasks ← generateEvolutionTasks bs;
  executeEvolutionTasks tasks.

Definition cycle : E unit :=
  _ ← prepare;
  _ ← validateEvolutions;
  _ ← progressiveDeployment;
  wait benchmarkInterval.

(** One pass of the [while (true)] of [startEvolutionCycle]. *)
Definition pass : E unit :=
  try_catch cycle (fun error => _ ← rollback; wait 300000).

End Engine.

(** The directory tree under a path, every directory of which can be read,
    and what [getDirectoryStructure] makes of it; entries in the order of
    [readdir].  An object is the list of the assignments [structure[item] =
    ...] in the order they are made: the fields of the object, in order,
    when the names are plain (see [plain] below). *)
#[local] Set Warnings "-register-all".

Inductive entry :=
| File
| Directory (items : list (string * entry)).

Inductive structure :=
| Null
| FileMark
| Object (fields : list (string * structure)).

Definition skipped (item : string) : bool :=
  String.prefix "." item || bool_decide (item = "node_modules").

(** What the loop stores under an item: the mark of a file, or the result
    of the recursive call for a directory. *)
Fixpoint describe (e : entry) (depth : nat) : structure :=
  match e with
  | File => FileMark
  | Directory items =>
      if bool_decide (3 < depth) then Null
      else Object
             ((fix each (l : list (string * entry)) : list (string * structure) :=
                 match l with
                 | [] => []
                 | (item, e') :: l' =>
                     if skipped item then each l'
                     else (item, describe e' (S depth)) :: each l'
                 end) items)
  end.

Definition getDirectoryStructure (items : list (string * entry)) (depth : nat)
  : structure :=
  describe (Directory items) depth.

(** The nesting of directories, and of objects. *)
Fixpoint height (s : structure) : nat :=
  match s with
  | Null | FileMark => 0
  | Object fields =>
      S (foldr (fun f acc => Nat.max (height f.2) acc) 0 fields)
  end.

(** A task as [createEvolutionTask] derives it from a benchmark. *)
Definition made_from (t : EvolutionTask) (b : BenchmarkResult) : Prop :=
  priority t = calculatePriority (gap b)
  ∧ type t = categorizeTask (category b)
  ∧ description t = "Upgrade " +:+ category b.

Definition score (t : EvolutionTask) : Z := getPriorityScore (priority t).

(** The call that creates the branch of a task; the calls that create a
    branch; computations that create none. *)
Definition branch_of (t : EvolutionTask) : call :=
  execSync ("git checkout -b auto-evolution/" +:+ id t).

Definition is_branch (c : call) : bool :=
  match c with
  | execSync command => String.prefix "git checkout -b " command
  | _ => false
  end.

Definition quiet {A} (m : E A) : Prop :=
  ∀ h, ∃ more, (m h).2 = h ++ more ∧ List.filter is_branch more = [].

(** Every field name of a structure, at every level, passes a test. *)
Fixpoint all_names (ok : string → bool) (s : structure) : bool :=
  match s with
  | Null | FileMark => true
  | Object fields => forallb (fun f => ok f.1 && all_names ok f.2) fields
  end.

(** A tree without skipped names; the nesting of its directories; the
    structure that shows all of it. *)
Fixpoint clean (e : entry) : bool :=
  match e with
  | File => true
  | Directory items =>
      forallb (fun x => negb (skipped x.1) && clean x.2) items
  end.

(** The names under which [structure[item] = ...] adds a field of its own
    at the end of the object: not [__proto__], whose assignment adds no
    field, and no name made of digits, which an object may list before its
    other names.  A plain tree has such names only, none of them skipped
    and none twice in a directory. *)
Definition is_digit (c : Ascii.ascii) : bool :=
  (48 <=? Ascii.nat_of_ascii c) && (Ascii.nat_of_ascii c <=? 57).

Fixpoint digits (s : string) : bool :=
  match s with
  | EmptyString => true
  | String c s' => is_digit c && digits s'
  end.

Definition appended (item : string) : bool :=
  negb (bool_decide (item = "__proto__")) && negb (digits item).

Fixpoint plain (e : entry) : bool :=
  match e with
  | File => true
  | Directory items =>
      bool_decide (NoDup items.*1)
      && forallb (fun x => negb (skipped x.1) && appended x.1 && plain x.2) items
  end.

Fixpoint nesting (e : entry) : nat :=
  match e with
  | File => 0
  | Directory items => S (foldr (fun x acc => Nat.max (nesting x.2) acc) 0 items)
  end.

Fixpoint mirror (e : entry) : structure :=
  match e with
  | File => FileMark
  | Directory items => Object (map (fun x => (x.1, mirror x.2)) items)
  end.

Definition repo : list (string * entry) :=
  [(".git", Directory [("HEAD", File)]);
   ("src", Directory [("a.ts", File); ("lib", Directory [("b.ts", File)])]);
   ("node_modules", Directory [("x", Directory [])]);
   ("package.json", File)].

(** Example outsides. *)
Definition benchmark0 (c : string) (g : Z) (fix_ : bool) : BenchmarkResult :=
  {| category := c; currentScore := 50; industryLeading := 90;
     gap := inject_Z g; recommendations := []; autoFixable := fix_ |}.

(** Nothing to improve, and the unit tests fail. *)
Definition red_tests : Outside :=
  {| exec := fun h command =>
       if bool_decide (command = "npm run test")
       then Throw (VString "tests failed") else Ok "ok";
     fsys := fun h c => Ok tt;
     message := fun h b => Ok (Some "plan");
     clock := fun h => 1700000000000%N;
     benchmarks := fun h => Ok [];
     extractCodeBlocks := fun s => [];
     repoRoot := "/repo" |}.

(** The benchmark step fails, and so does the rollback. *)
Definition broken : Outside :=
  {| exec := fun h command => Throw (VString "not a git repository");
     fsys := fun h c => Ok tt;
     message := fun h b => Ok (Some "plan");
     clock := fun h => 1700000000000%N;
     benchmarks := fun h => Throw (VString "rate limited");
     extractCodeBlocks := fun s => [];
     repoRoot := "/repo" |}.

(** Everything works and the benchmark output says PASS. *)
Definition green : Outside :=
  {| exec := fun h command =>
       if bool_decide (command = "npm run benchmark")
       then Ok "suite: PASS" else Ok "ok";
     fsys := fun h c => Ok tt;
     message := fun h b => Ok (Some "plan");
     clock := fun h => 1700000000000%N;
     benchmarks := fun h => Ok [benchmark0 "security audit" 60 true];
     extractCodeBlocks := fun s => [("src/a.ts", "code")];
     repoRoot := "/repo" |}.

End Engine.

(** * Properties of the task graph *)

Module GraphFacts.
Import TaskGraph.

(** ** Sorting keeps the elements *)

Lemma sort_insert_perm x l : sort_insert x l ≡ₚ x :: l.
Proof.
  induction l as [|y ys IH]; simpl; [done|].
  destruct (positive_q (compareFn x y)); [|done].
  rewrite IH. apply Permutation_swap.
Qed.

Lemma sort_perm l : sort l ≡ₚ l.
Proof.
  induction l as [|x l IH]; simpl; [done|].
  by rewrite sort_insert_perm, IH.
Qed.

Lemma deps_started_spec g node :
  deps_started g node = true ↔
  Forall (fun dep => is_Some (executionPool g !! dep)) (dependencies node).
Proof.
  unfold deps_started, pool_has.
  rewrite forallb_forall, Forall_forall.
  split; intros H dep Hdep.
  - apply list_elem_of_In, H in Hdep. by apply bool_decide_eq_true in Hdep.
  - apply bool_decide_eq_true, H. by apply list_elem_of_In.
Qed.

Lemma elem_of_getReadyTasks g node :
  node ∈ getReadyTasks g ↔
  node ∈ map_values (nodes g) ∧ deps_started g node = true.
Proof.
  unfold getReadyTasks. rewrite sort_perm.
  rewrite list_elem_of_In, filter_In, <- list_elem_of_In. done.
Qed.

(** ** The value of the race is not an element of [executing] *)

Lemma indexOf_from_completed i l p :
  indexOf_from i (promise_object <$> l) (fulfilment_value p) = (-1)%Z.
Proof.
  revert i. induction l as [|q l IH]; intros i; csimpl; [done|].
  apply IH.
Qed.

Lemma indexOf_completed l p :
  indexOf (promise_object <$> l) (fulfilment_value p) = (-1)%Z.
Proof. apply indexOf_from_completed. Qed.

(** [splice(-1, 1)] removes the last element. *)
Lemma splice1_last l : splice1 (-1) l = removelast l.
Proof.
  unfold splice1. simpl.
  destruct (decide (l = [])) as [->|Hne]; [done|].
  destruct (exists_last Hne) as (l' & x & ->).
  rewrite removelast_last, length_app. simpl.
  replace (Z.to_nat (Z.max (Z.of_nat (length l' + 1) + -1) 0)) with (length l')
    by lia.
  rewrite take_app_length, drop_ge; [by rewrite app_nil_r|].
  rewrite length_app. simpl. lia.
Qed.

(** ** The nodes of the graph are fixed once the run has entered the loop *)

Lemma launch_ready_nodes rdy st :
  nodes (graph (launch_ready rdy st)) = nodes (graph st).
Proof.
  revert st. induction rdy as [|t rdy IH]; intros st; simpl; [done|].
  case_bool_decide; [|done]. by rewrite IH.
Qed.

Lemma await_race_nodes ev st st' :
  await_race ev st = inl st' → nodes (graph st') = nodes (graph st).
Proof.
  unfold await_race. destruct (race ev st) as [[p []]|]; intros [= <-]; done.
Qed.

Lemma await_race_ready ev st st' :
  await_race ev st = inl st' →
  ready st' = ready st ++ getReadyTasks (graph st').
Proof.
  unfold await_race. destruct (race ev st) as [[p []]|]; intros [= <-]; done.
Qed.

Lemma pool_set_started g k p node :
  deps_started g node = true → deps_started (pool_set k p g) node = true.
Proof.
  rewrite !deps_started_spec. intros H. eapply Forall_impl; [exact H|].
  intros dep Hdep. simpl.
  destruct (decide (k = dep)) as [->|Hne].
  - rewrite lookup_insert_eq. eauto.
  - by rewrite lookup_insert_ne.
Qed.

Lemma no_dependencies_ready g node :
  node ∈ map_values (nodes g) → dependencies node = [] → node ∈ getReadyTasks g.
Proof.
  intros Hin Hdeps. apply elem_of_getReadyTasks. split; [done|].
  unfold deps_started. by rewrite Hdeps.
Qed.

(** ** The loop never sees an empty [ready] once a root exists *)

Lemma has_root_ready g : has_root g → getReadyTasks g ≠ [].
Proof.
  intros (node & Hin & Hdeps) Hnil.
  pose proof (no_dependencies_ready g node Hin Hdeps) as H.
  rewrite Hnil in H. by apply not_elem_of_nil in H.
Qed.

Lemma launch_ready_status rdy st :
  status (launch_ready rdy st) = status st.
Proof.
  revert st. induction rdy as [|t rdy IH]; intros st; simpl; [done|].
  case_bool_decide; [|done]. by rewrite IH.
Qed.

Lemma settle_only_fulfilled ev st :
  Forall (fun e => e.2 = Fulfilled) ev →
  only_fulfilled (status st) → only_fulfilled (status (settle ev st)).
Proof.
  unfold settle; simpl. generalize (fresh st) as n.
  generalize (status st) as m. induction ev as [|[q s] ev IH]; intros m n Hev Hm.
  - done.
  - apply Forall_cons in Hev as [Hs Hev']. simpl in Hs. subst s. simpl.
    apply IH; [exact Hev'|].
    destruct (_ && _); [|exact Hm].
    intros p s. destruct (decide (q = p)) as [->|Hne].
    + rewrite lookup_insert_eq. congruence.
    + rewrite lookup_insert_ne by done. apply Hm.
Qed.

Lemma race_fulfilled ev st p s :
  Forall (fun e => e.2 = Fulfilled) ev → only_fulfilled (status st) →
  race ev st = Some (p, s) → s = Fulfilled.
Proof.
  intros Hev Hm. unfold race.
  destruct (head _) as [w|] eqn:Hhead.
  - intros [= ->]. apply head_Some_elem_of, list_elem_of_omap in Hhead.
    destruct Hhead as (q & _ & Hq).
    destruct (status st !! q) as [s'|] eqn:Hs; simplify_eq/=. eauto.
  - intros Hfind. apply find_some in Hfind as [Hin _].
    rewrite Forall_forall in Hev. apply list_elem_of_In, Hev in Hin. done.
Qed.

Lemma await_race_status ev st st' :
  await_race ev st = inl st' → status st' = status (settle ev st).
Proof.
  unfold await_race. destruct (race ev st) as [[p []]|]; intros [= <-]; done.
Qed.

Lemma loop_cond_ready st : ready st ≠ [] → loop_cond st = true.
Proof. unfold loop_cond. destruct (ready st); [done|]. by intros _. Qed.

Lemma launch_has_root st : has_root (graph st) → has_root (graph (launch st)).
Proof.
  intros (node & Hin & Hdeps). exists node. split; [|done].
  unfold launch. by rewrite launch_ready_nodes.
Qed.

Lemma run_loop_never_returns sched st :
  has_root (graph st) → ready st ≠ [] →
  no_rejection sched → only_fulfilled (status st) →
  ∃ st', run_loop sched st = Running st' ∨ run_loop sched st = Suspended st'.
Proof.
  revert st. induction sched as [|ev sched IH]; intros st Hroot Hready Hsched Hm.
  - simpl. rewrite loop_cond_ready by done. eauto.
  - apply Forall_cons in Hsched as [Hev Hsched'].
    simpl. rewrite loop_cond_ready by done.
    assert (only_fulfilled (status (launch st))) as Hm'.
    { unfold launch. by rewrite launch_ready_status. }
    destruct (await_race ev (launch st)) as [st'|o] eqn:Haw.
    + assert (has_root (graph st')) as Hroot'.
      { destruct (launch_has_root st Hroot) as (node & Hin & Hdeps).
        exists node. split; [|done]. by rewrite (await_race_nodes _ _ _ Haw). }
      apply IH; [done| |done|].
      * rewrite (await_race_ready _ _ _ Haw). intros Happ.
        apply app_eq_nil in Happ as [_ Hnil]. by apply has_root_ready in Hnil.
      * rewrite (await_race_status _ _ _ Haw).
        by apply settle_only_fulfilled.
    + unfold await_race in Haw.
      destruct (race ev (launch st)) as [[p s]|] eqn:Hrace.
      * apply race_fulfilled in Hrace; [subst s; done|done|done].
      * injection Haw as <-. eauto.
Qed.

(** C3.  A workflow with a node that has no dependencies, run on a fresh
    graph with agents that never fail: [executeAsync] does not return and does
    not throw; after any number of waits it is still inside its loop (or
    waiting for an agent), because every refill of [ready] brings the root
    back. *)
Theorem executeAsync_never_terminates workflow sched :
  has_root (build workflow new_graph) → no_rejection sched →
  ∃ st, executeAsync sched workflow new_graph = Running st
        ∨ executeAsync sched workflow new_graph = Suspended st.
Proof.
  intros Hroot Hsched. unfold executeAsync.
  apply run_loop_never_returns; [done| |done|].
  - by apply has_root_ready.
  - intros p s. simpl. by rewrite lookup_empty.
Qed.

Lemma executeAsync_never_terminates_single :
  has_root (build single new_graph) ∧
  no_rejection [[(0, Fulfilled)]; [(1, Fulfilled)]; [(2, Fulfilled)]] ∧
  ∃ st, executeAsync [[(0, Fulfilled)]; [(1, Fulfilled)]; [(2, Fulfilled)]]
          single new_graph = Running st
        ∨ executeAsync [[(0, Fulfilled)]; [(1, Fulfilled)]; [(2, Fulfilled)]]
          single new_graph = Suspended st.
Proof.
  assert (has_root (build single new_graph)) as Hroot.
  { exists (task "A" [] 5). split; [|reflexivity]. simpl. left. }
  assert (no_rejection [[(0, Fulfilled)]; [(1, Fulfilled)]; [(2, Fulfilled)]])
    as Hsched.
  { repeat constructor. }
  split; [exact Hroot|]. split; [exact Hsched|].
  exact (executeAsync_never_terminates single _ Hroot Hsched).
Defined.

(** ** Nodes that wait for each other are never dispatched *)

Lemma ready_avoids S g :
  closed S g → (∀ k, S k → executionPool g !! k = None) →
  ∀ t, t ∈ getReadyTasks g → ¬ S (id t).
Proof.
  intros Hclosed Hpool t Ht HS.
  apply elem_of_getReadyTasks in Ht as [Hin Hdeps].
  destruct (Hclosed t Hin HS) as (dep & Hdep & HSdep).
  apply deps_started_spec in Hdeps. rewrite Forall_forall in Hdeps.
  destruct (Hdeps dep Hdep) as [p Hp]. rewrite (Hpool dep HSdep) in Hp. done.
Qed.

Lemma launch_ready_avoids S rdy st :
  (∀ t, t ∈ rdy → ¬ S (id t)) →
  avoids S st → avoids S (launch_ready rdy st).
Proof.
  revert st. induction rdy as [|t rdy IH]; intros st Hrdy (Hpool & Hready & Hdisp).
  - simpl. split_and!; [done| |done]. intros t Ht. by apply not_elem_of_nil in Ht.
  - simpl. case_bool_decide.
    + apply IH.
      * intros t' Ht'. apply Hrdy. by right.
      * assert (¬ S (id t)) as Hnt by (apply Hrdy; left).
        split_and!; simpl.
        -- intros k Hk. rewrite lookup_insert_ne; [by apply Hpool|].
           intros Heq. apply Hnt. by rewrite Heq.
        -- done.
        -- intros e [He|He]%elem_of_app; [by apply Hdisp|].
           apply list_elem_of_singleton in He as ->. done.
    + split_and!; done.
Qed.

Lemma await_race_avoids S ev st st' :
  closed S (graph st) → avoids S st →
  await_race ev st = inl st' → avoids S st'.
Proof.
  intros Hclosed (Hpool & Hready & Hdisp). unfold await_race.
  destruct (race ev st) as [[p []]|]; intros [= <-]; simpl.
  split_and!; [done| |done].
  intros t [Ht|Ht]%elem_of_app; [by apply Hready|].
  by apply (ready_avoids S (graph st)).
Qed.

Lemma await_race_final ev st o :
  await_race ev st = inr o →
  graph (final o) = graph st ∧ ready (final o) = ready st
  ∧ dispatched (final o) = dispatched st.
Proof.
  unfold await_race.
  destruct (race ev st) as [[p []]|]; intros [= <-]; done.
Qed.

Lemma run_loop_avoids S sched st :
  closed S (graph st) → avoids S st → avoids S (final (run_loop sched st)).
Proof.
  revert st. induction sched as [|ev sched IH]; intros st Hclosed Hav.
  - simpl. destruct (loop_cond st); done.
  - simpl. destruct (loop_cond st); [|done].
    assert (avoids S (launch st)) as Hav'.
    { apply launch_ready_avoids; [|done]. apply Hav. }
    assert (closed S (graph (launch st))) as Hclosed'.
    { intros node. unfold launch. rewrite launch_ready_nodes. apply Hclosed. }
    destruct (await_race ev (launch st)) as [st'|o] eqn:Haw.
    + apply IH.
      * intros node. rewrite (await_race_nodes _ _ _ Haw). apply Hclosed'.
      * by eapply await_race_avoids.
    + apply await_race_final in Haw as (Hg & Hr & Hd).
      destruct Hav' as (Hpool & Hready & Hdisp).
      split_and!; rewrite ?Hg, ?Hr, ?Hd; done.
Qed.

(** ** A built graph is keyed by the ids of its nodes *)

Lemma map_set_elem k v m e : e ∈ map_set k v m → e = (k, v) ∨ e ∈ m.
Proof.
  induction m as [|[k' v'] m IH]; simpl.
  - intros ->%list_elem_of_singleton. by left.
  - case_decide.
    + intros [->|He]%elem_of_cons; [by left|]. right. by right.
    + intros [->|He]%elem_of_cons; [right; left|].
      destruct (IH He) as [->|Hin]; [by left|]. right. by right.
Qed.

Lemma map_set_fst_elem k v m k' : k' ∈ (map_set k v m).*1 → k' = k ∨ k' ∈ m.*1.
Proof.
  intros ([k1 v1] & -> & He)%list_elem_of_fmap.
  apply map_set_elem in He as [[= -> ->]|He]; [by left|].
  right. apply list_elem_of_fmap. by exists (k1, v1).
Qed.

Lemma map_set_NoDup k v m : NoDup m.*1 → NoDup (map_set k v m).*1.
Proof.
  induction m as [|[k' v'] m IH]; simpl.
  - intros _. apply NoDup_singleton.
  - intros [Hk' Hm]%NoDup_cons. case_decide; simpl.
    + subst k'. by apply NoDup_cons.
    + apply NoDup_cons. split; [|by apply IH].
      intros [->|Hin]%map_set_fst_elem; done.
Qed.

Lemma build_well_keyed workflow g :
  well_keyed (nodes g) → well_keyed (nodes (build workflow g)).
Proof.
  revert g. induction workflow as [|node workflow IH]; intros g Hg; [done|].
  simpl. apply IH. destruct Hg as [Hnd Hid]. split; simpl.
  - by apply map_set_NoDup.
  - intros k v [[= -> ->]|He]%map_set_elem; [done|]. by apply Hid.
Qed.

Lemma keyed_functional (m : list (string * TaskNode)) k v1 v2 :
  NoDup m.*1 → (k, v1) ∈ m → (k, v2) ∈ m → v1 = v2.
Proof.
  induction m as [|[k' v'] m IH]; simpl.
  - intros _ H. by apply not_elem_of_nil in H.
  - intros [Hk' Hm]%NoDup_cons [H1|H1]%elem_of_cons [H2|H2]%elem_of_cons.
    + congruence.
    + simplify_eq. destruct Hk'. apply list_elem_of_fmap. by exists (k', v2).
    + simplify_eq. destruct Hk'. apply list_elem_of_fmap. by exists (k', v1).
    + by apply IH.
Qed.

Lemma reaches_snoc g a b c : reaches g a b → depends g b c → reaches g a c.
Proof.
  induction 1 as [a b Hab|a b c' Hab Hbc IH]; intros Hc.
  - eapply reaches_step; [done|]. by apply reaches_edge.
  - eapply reaches_step; [done|]. by apply IH.
Qed.

Lemma on_cycle_closed g : well_keyed (nodes g) → closed (on_cycle g) g.
Proof.
  intros [Hnd Hid] node Hin Hcyc.
  apply list_elem_of_fmap in Hin as ([k node'] & -> & Hin). simpl in *.
  rewrite (Hid _ _ Hin) in Hcyc.
  assert (∀ b n, (k, n) ∈ nodes g → b ∈ dependencies n →
                 b ∈ dependencies node') as Hsame.
  { intros b n Hn Hb. by rewrite (keyed_functional _ _ _ _ Hnd Hin Hn). }
  unfold on_cycle in Hcyc.
  inversion Hcyc as [a b (n & Hn & Hb)|a b c (n & Hn & Hb) Hbk]; subst.
  - exists k. split; [by eapply Hsame|done].
  - exists b. split; [by eapply Hsame|].
    eapply reaches_snoc; [done|]. by exists n.
Qed.

Lemma new_graph_well_keyed : well_keyed (nodes new_graph).
Proof.
  split; simpl; [apply NoDup_nil_2|]. intros k node H. by apply not_elem_of_nil in H.
Qed.

Lemma enter_avoids S workflow g :
  closed S (build workflow g) →
  (∀ k, S k → executionPool (build workflow g) !! k = None) →
  avoids S (enter workflow g).
Proof.
  intros Hclosed Hpool. split_and!; simpl; [done| |].
  - by apply ready_avoids.
  - intros e He. by apply not_elem_of_nil in He.
Qed.

Lemma build_pool workflow g : executionPool (build workflow g) = executionPool g.
Proof. revert g. induction workflow as [|n w IH]; intros g; simpl; [done|]. by rewrite IH. Qed.

Lemma run_loop_not_thrown sched st st' :
  no_rejection sched → only_fulfilled (status st) →
  run_loop sched st ≠ Thrown st'.
Proof.
  revert st. induction sched as [|ev sched IH]; intros st Hsched Hm.
  - simpl. by destruct (loop_cond st).
  - apply Forall_cons in Hsched as [Hev Hsched].
    simpl. destruct (loop_cond st); [|done].
    assert (only_fulfilled (status (launch st))) as Hm'.
    { unfold launch. by rewrite launch_ready_status. }
    destruct (await_race ev (launch st)) as [st1|o] eqn:Haw.
    + apply IH; [done|]. rewrite (await_race_status _ _ _ Haw).
      by apply settle_only_fulfilled.
    + unfold await_race in Haw.
      destruct (race ev (launch st)) as [[p s]|] eqn:Hrace.
      * apply race_fulfilled in Hrace; [subst s; done|done|done].
      * by simplify_eq/=.
Qed.

(** ** The claims about [DynamicTaskGraph] *)

(** C1.  The run of [fork] (B waits for A) in which A2 finishes first: at
    the refill after the first wait [getReadyTasks] lists B although A, its
    dependency, is in the pool but still pending; the next launch starts B
    next to the unfinished A. *)
Theorem dependent_ready_while_dependency_running :
  let st := final (executeAsync [[(1, Fulfilled)]] fork new_graph) in
  id <$> getReadyTasks (graph st) = ["A"; "A2"; "B"]
  ∧ completed st "A" = false
  ∧ ids (running st) = ["A"]
  ∧ ids (running (launch st)) = ["A"; "A"; "A2"; "B"].
Proof. vm_compute. done. Qed.

(** C2.  Eighteen independent tasks, the first one finishing first: the
    value of the race is looked up in the array of promises, is not found,
    and [splice(-1, 1)] drops the newest promise instead of the settled one.
    After the second wait the third launch brings the number of tasks that
    run at the same time to 17, above [maxConcurrency] = 16. *)
Theorem running_exceeds_maxConcurrency :
  let st := launch (final (executeAsync [[(0, Fulfilled)]; []]
                             (independent 18) new_graph)) in
  maxConcurrency (graph st) = 16
  ∧ length (running st) = 17
  ∧ ids (running st) = (fun i => "t" +:+ pretty i) <$> seq 2 17
  ∧ length (executing st) = 16.
Proof. vm_compute. done. Qed.

(** C6, as the code has it.  On a fresh graph, for any workflow: the call
    throws nothing, a DependencyCycleError no more than anything else, as
    long as no promise of an agent rejects; a node on a dependency cycle
    never enters the execution pool and is never dispatched, whatever the
    agents do; and when every node lies on a cycle the call returns
    normally at once with nothing dispatched. *)
Theorem cyclic_nodes_never_dispatched workflow sched :
  let g := build workflow new_graph in
  let st := final (executeAsync sched workflow new_graph) in
  (no_rejection sched →
   ∀ st', executeAsync sched workflow new_graph ≠ Thrown st')
  ∧ (∀ k, on_cycle g k →
          executionPool (graph st) !! k = None ∧ k ∉ ids (dispatched st))
  ∧ ((∀ node, node ∈ map_values (nodes g) → on_cycle g (id node)) →
     executeAsync sched workflow new_graph = Returned (enter workflow new_graph)
     ∧ dispatched st = []).
Proof.
  intros g st.
  assert (closed (on_cycle g) g) as Hclosed.
  { apply on_cycle_closed, build_well_keyed, new_graph_well_keyed. }
  assert (avoids (on_cycle g) (enter workflow new_graph)) as Henter.
  { apply enter_avoids; [done|]. intros k' _. by rewrite build_pool. }
  assert (avoids (on_cycle g) st) as (Hpool & _ & Hdisp).
  { by apply run_loop_avoids. }
  split_and!.
  - intros Hsched st'. apply run_loop_not_thrown; [done|].
    intros p s. simpl. by rewrite lookup_empty.
  - intros k Hk. split; [by apply Hpool|].
    intros (e & -> & He)%list_elem_of_fmap. by apply (Hdisp e).
  - intros Hall.
    assert (getReadyTasks g = []) as Hnil.
    { destruct (getReadyTasks g) as [|t rdy] eqn:Hr; [done|].
      assert (t ∈ getReadyTasks g) as Ht by (rewrite Hr; left).
      destruct (ready_avoids (on_cycle g) g Hclosed) with (t := t); [|done|].
      - intros k' _. subst g. by rewrite build_pool.
      - apply Hall. by apply elem_of_getReadyTasks in Ht as [Ht _]. }
    assert (run_loop sched (enter workflow new_graph)
            = Returned (enter workflow new_graph)) as Hret.
    { destruct sched; simpl; unfold loop_cond; simpl; fold g; rewrite Hnil; done. }
    subst st. unfold executeAsync. by rewrite Hret.
Qed.

Lemma cycle3_on_cycle : on_cycle (build cycle3 new_graph) "A".
Proof.
  assert (∀ a deps b, (a, task a deps 5) ∈ nodes (build cycle3 new_graph) →
                      b ∈ deps → depends (build cycle3 new_graph) a b) as Hdep.
  { intros a deps b Ha Hb. by exists (task a deps 5). }
  eapply reaches_step; [|eapply reaches_step; [|apply reaches_edge]].
  - apply (Hdep "A" ["C"] "C"); [vm_compute|]; set_solver.
  - apply (Hdep "C" ["B"] "B"); [vm_compute|]; set_solver.
  - apply (Hdep "B" ["A"] "A"); [vm_compute|]; set_solver.
Qed.

Lemma cyclic_nodes_never_dispatched_cycle3 :
  let st := final (executeAsync [[(0, Fulfilled)]] cycle3 new_graph) in
  on_cycle (build cycle3 new_graph) "A"
  ∧ executionPool (graph st) !! "A" = None
  ∧ "A" ∉ ids (dispatched st).
Proof.
  split; [exact cycle3_on_cycle|].
  exact (proj1 (proj2 (cyclic_nodes_never_dispatched cycle3 [[(0, Fulfilled)]]))
           "A" cycle3_on_cycle).
Defined.

(** C6, as the claim has it: a workflow with the cycle A, B, C and a free
    node D is not rejected; D is dispatched and runs.  The pure cycle is not
    rejected either: the call returns normally. *)
Lemma cyclic_workflow_partly_executed :
  on_cycle (build cycle3_and_free new_graph) "A"
  ∧ (∃ st, executeAsync [[]] cycle3_and_free new_graph = Suspended st
           ∧ ids (running st) = ["D"])
  ∧ (∃ st, executeAsync [[]] cycle3 new_graph = Returned st).
Proof.
  split_and!.
  - assert (∀ a deps b,
              (a, task a deps 5) ∈ nodes (build cycle3_and_free new_graph) →
              b ∈ deps → depends (build cycle3_and_free new_graph) a b) as Hdep.
    { intros a deps b Ha Hb. by exists (task a deps 5). }
    eapply reaches_step; [|eapply reaches_step; [|apply reaches_edge]].
    + apply (Hdep "A" ["C"] "C"); [vm_compute|]; set_solver.
    + apply (Hdep "C" ["B"] "B"); [vm_compute|]; set_solver.
    + apply (Hdep "B" ["A"] "A"); [vm_compute|]; set_solver.
  - eexists. split; [vm_compute; reflexivity|]. vm_compute. done.
  - eexists. vm_compute. reflexivity.
Qed.

(** C10.  [getReadyTasks] lists exactly the nodes of the graph all of whose
    dependency ids are keys of the execution pool.  Putting any task in the
    pool removes nothing from the list; a node without dependencies is on it
    at every call; and the run of a single such node dispatches it again
    after each wait. *)
Theorem getReadyTasks_keeps_dispatched :
  (∀ g node,
     node ∈ getReadyTasks g ↔
     node ∈ map_values (nodes g)
     ∧ Forall (fun dep => is_Some (executionPool g !! dep)) (dependencies node))
  ∧ (∀ g node k p,
       node ∈ getReadyTasks g → node ∈ getReadyTasks (pool_set k p g))
  ∧ (∀ g node,
       node ∈ map_values (nodes g) → dependencies node = [] →
       node ∈ getReadyTasks g)
  ∧ (∃ st, executeAsync [[(0, Fulfilled)]; [(1, Fulfilled)]] single new_graph
           = Running st
           ∧ dispatched st = [(0, task "A" [] 5); (1, task "A" [] 5)]
           ∧ ready st = [task "A" [] 5]).
Proof.
  split_and!.
  - intros g node. by rewrite elem_of_getReadyTasks, deps_started_spec.
  - intros g node k p [Hin Hdeps]%elem_of_getReadyTasks.
    apply elem_of_getReadyTasks. split; [done|]. by apply pool_set_started.
  - apply no_dependencies_ready.
  - eexists. split; [vm_compute; reflexivity|]. vm_compute. done.
Qed.

(** ** The priority score *)


(** The three literals of the function stand for 0.4, 0.2 and 100: the
    first two are the binary64 values nearest to the decimals, less than
    half a unit in the last place away. *)
Lemma literals_as_written :
  (Qabs (to_Q literal_0_4 - (4 # 10)) < 1 / 2 ^ 55)%Q
  ∧ (Qabs (to_Q literal_0_2 - (2 # 10)) < 1 / 2 ^ 56)%Q
  ∧ (to_Q literal_100 == 100)%Q.
Proof. split_and!; reflexivity. Qed.



(** A score inside the interval, as it is computed: success rate 1,
    priority 50 and availability 0.5 give 6305039478318695 / 2^53, which
    prints as 0.7000000000000001. *)
Lemma priority_score_half :
  calculateBayesianPriority_binary64 (of_Z 1) (of_Z 50) (div (of_Z 1) (of_Z 2))
  = S754_finite false 6305039478318695 (-53).
Proof. vm_compute. reflexivity. Qed.

End GraphFacts.

(** * Properties of the orchestrator *)

Module HealingFacts.
Import Healing.

Ltac sr := unfold mbind, sr_bind, mret, sr_ret, try_catch, throw, lift, log, ext.

Section Chain.
Context (respond : history → call → result value).
Context (registry : gmap string strategy).
Context (workflow : value) (context : Context) (error : value).

Local Abbreviation attempt := (attempt respond registry).
Local Abbreviation invoke := (invoke registry).
Local Abbreviation all_fail := (all_fail registry workflow context error).

Lemma attempt_throw name h h' e j :
  invoke name workflow context error h = (Throw e, h') →
  attempt name workflow context error {| calls := h; console := j |}
  = (Ok None, {| calls := h';
                 console := j ++ [Attempting name; FailedTryingNext name] |}).
Proof.
  intros Hinv. unfold Healing.attempt. sr. simpl. rewrite Hinv. simpl.
  by rewrite <- app_assoc.
Qed.

Lemma attempt_falsy name h h' v j :
  invoke name workflow context error h = (Ok v, h') → truthy v = false →
  attempt name workflow context error {| calls := h; console := j |}
  = (Ok None, {| calls := h'; console := j ++ [Attempting name] |}).
Proof.
  intros Hinv Hv. unfold Healing.attempt. sr. simpl. rewrite Hinv. simpl.
  by rewrite Hv.
Qed.

Lemma attempt_truthy name h h' v u j :
  invoke name workflow context error h = (Ok v, h') → truthy v = true →
  respond h' (updateModel context true (Some name)) = Ok u →
  attempt name workflow context error {| calls := h; console := j |}
  = (Ok (Some v),
     {| calls := h' ++ [updateModel context true (Some name)];
        console := j ++ [Attempting name; Successful name] |}).
Proof.
  intros Hinv Hv Hu. unfold Healing.attempt. sr. simpl. rewrite Hinv. simpl.
  rewrite Hv. simpl. rewrite Hu. by rewrite <- app_assoc.
Qed.

(** The model update sits in the same [try]: when it throws, the answer of
    the strategy is dropped and the loop goes on. *)
Lemma attempt_update_throws name h h' v x j :
  invoke name workflow context error h = (Ok v, h') → truthy v = true →
  respond h' (updateModel context true (Some name)) = Throw x →
  attempt name workflow context error {| calls := h; console := j |}
  = (Ok None,
     {| calls := h' ++ [updateModel context true (Some name)];
        console := j ++ [Attempting name; Successful name;
                         FailedTryingNext name] |}).
Proof.
  intros Hinv Hv Hu. unfold Healing.attempt. sr. simpl. rewrite Hinv. simpl.
  rewrite Hv. simpl. rewrite Hu. simpl. by rewrite <- !app_assoc.
Qed.

Lemma attempted_app c1 c2 : attempted (c1 ++ c2) = attempted c1 ++ attempted c2.
Proof. apply omap_app. Qed.

(** Failing strategies are walked through in the order of the list,
    whatever weights the list carries. *)
Lemma autoRecover_over_skip pre h h' :
  all_fail pre h h' →
  ∀ j, ∃ j',
    attempted j' = attempted j ++ pre
    ∧ ∀ l1 l2 : list (string * Q), l1.*1 = pre →
        autoRecover_over respond registry (l1 ++ l2) error workflow context
          {| calls := h; console := j |}
        = autoRecover_over respond registry l2 error workflow context
            {| calls := h'; console := j' |}.
Proof.
  induction 1 as [h|name pre h hm h' e Hinv Hrest IH
                   |name pre h hm h' v Hinv Hv Hrest IH]; intros j.
  - exists j. split; [by rewrite app_nil_r|].
    intros l1 l2 Hl1. by apply fmap_nil_inv in Hl1 as ->.
  - destruct (IH (j ++ [Attempting name; FailedTryingNext name]))
      as (j' & Hatt & Heq).
    exists j'. split.
    + rewrite Hatt, attempted_app. simpl. by rewrite <- app_assoc.
    + intros l1 l2 Hl1. destruct l1 as [|[n w] l1]; [done|].
      injection Hl1 as -> Hl1. simpl. sr.
      rewrite (attempt_throw _ _ _ _ _ Hinv). by apply Heq.
  - destruct (IH (j ++ [Attempting name])) as (j' & Hatt & Heq).
    exists j'. split.
    + rewrite Hatt, attempted_app. simpl. by rewrite <- app_assoc.
    + intros l1 l2 Hl1. destruct l1 as [|[n w] l1]; [done|].
      injection Hl1 as -> Hl1. simpl. sr.
      rewrite (attempt_falsy _ _ _ _ _ Hinv Hv). by apply Heq.
Qed.

Lemma strategies_names : strategies.*1 = names.
Proof. reflexivity. Qed.

(** The order of the chain, as long as the model can be updated.  The chain
    is walked in the order exponential_backoff_retry, checkpoint_rollback,
    alternate_path_routing, graceful_degradation, with any weights in place
    of the four of the code: when the strategies before [name] fail (throw
    or answer with a falsy value), [name] answers with a truthy value and
    the model update that follows returns, that value is the result of
    [autoRecover], the strategies attempted are those up to [name] in that
    order, and the last call made is the model update. *)
Lemma autoRecover_first_success (weight : string → Q)
    pre name post h h1 h2 v u j :
  names = pre ++ name :: post →
  all_fail pre h h1 →
  invoke name workflow context error h1 = (Ok v, h2) →
  truthy v = true →
  respond h2 (updateModel context true (Some name)) = Ok u →
  ∃ j',
    autoRecover_over respond registry ((fun n => (n, weight n)) <$> names)
      error workflow context {| calls := h; console := j |}
    = (Ok v, {| calls := h2 ++ [updateModel context true (Some name)];
                console := j' |})
    ∧ autoRecover respond registry error workflow context
        {| calls := h; console := j |}
      = (Ok v, {| calls := h2 ++ [updateModel context true (Some name)];
                  console := j' |})
    ∧ attempted j' = attempted j ++ pre ++ [name].
Proof.
  intros Hnames Hfail Hinv Hv Hu.
  destruct (autoRecover_over_skip pre h h1 Hfail j) as (jm & Hatt & Hskip).
  exists (jm ++ [Attempting name; Successful name]).
  assert (∀ l : list (string * Q), l.*1 = names →
            autoRecover_over respond registry l error workflow context
              {| calls := h; console := j |}
            = (Ok v, {| calls := h2 ++ [updateModel context true (Some name)];
                        console := jm ++ [Attempting name; Successful name] |}))
    as Hrun.
  { intros l Hl. rewrite Hnames in Hl.
    apply fmap_app_inv in Hl as (l1 & l2 & Hl1 & Hl2 & ->).
    symmetry in Hl2. apply fmap_cons_inv in Hl2 as ([n w] & l3 & Hn & _ & ->).
    simpl in Hn. subst n.
    rewrite (Hskip l1 _ (eq_sym Hl1)). simpl. sr.
    by rewrite (attempt_truthy _ _ _ _ _ _ Hinv Hv Hu). }
  split_and!.
  - apply Hrun. rewrite <- list_fmap_compose. by rewrite list_fmap_id.
  - apply Hrun, strategies_names.
  - rewrite attempted_app, Hatt. simpl. by rewrite <- app_assoc.
Qed.

(** C7.  When each of the four strategies throws or answers with a falsy
    value, [autoRecover] returns [null] after attempting all four in order,
    the [catch] block of [executeWithSelfHealing] throws the error it
    caught, and so does [executeWithSelfHealing] for an error raised by its
    [try] block: the caller receives the failure. *)
Theorem recovery_exhausted_rethrows h h' j :
  all_fail names h h' →
  ∃ j',
    autoRecover respond registry error workflow context
      {| calls := h; console := j ++ [FailureDetected] |}
    = (Ok VNull, {| calls := h'; console := j' |})
    ∧ attempted j' = attempted j ++ names
    ∧ recover_or_rethrow respond registry workflow context error
        {| calls := h; console := j |}
      = (Throw error, {| calls := h'; console := j' |})
    ∧ ∀ w0,
        monitored_execution respond workflow context w0
        = (Throw error, {| calls := h; console := j |}) →
        executeWithSelfHealing respond registry workflow context w0
        = (Throw error, {| calls := h'; console := j' |}).
Proof.
  intros Hfail.
  destruct (autoRecover_over_skip names h h' Hfail (j ++ [FailureDetected]))
    as (j' & Hatt & Hskip).
  assert (autoRecover respond registry error workflow context
            {| calls := h; console := j ++ [FailureDetected] |}
          = (Ok VNull, {| calls := h'; console := j' |})) as Hauto.
  { unfold autoRecover.
    rewrite <- (app_nil_r strategies).
    by rewrite (Hskip strategies [] strategies_names). }
  assert (recover_or_rethrow respond registry workflow context error
            {| calls := h; console := j |}
          = (Throw error, {| calls := h'; console := j' |})) as Hcatch.
  { unfold recover_or_rethrow. sr. simpl. by rewrite Hauto. }
  exists j'. split_and!; [done| |done|].
  - rewrite Hatt, attempted_app. simpl. by rewrite app_nil_r.
  - intros w0 Hbody. unfold executeWithSelfHealing, try_catch.
    by rewrite Hbody.
Qed.

End Chain.

(** ** The retry strategy *)

Section Retry.
Context (respond : history → call → result value).
Context (registry : gmap string strategy).
Context (workflow : value) (context : Context) (error : value).

Lemma retry_calls_S n :
  retry_calls workflow (S n)
  = retry_calls workflow n
    ++ [sleep (2 ^ Z.of_nat n * 1000); executeWorkflow workflow].
Proof.
  unfold retry_calls. rewrite seq_S, bind_app. simpl. done.
Qed.

(** One pass of the loop, entered at [h0] and now before attempt [i]. *)
Lemma retry_loop_step left i h0 :
  sleeps_return respond →
  retry_loop respond (S left) i workflow (h0 ++ retry_calls workflow i)
  = match attempt_outcome respond workflow h0 i with
    | Ok v => (Ok v, h0 ++ retry_calls workflow (S i))
    | Throw e =>
        if bool_decide (i = maxRetries - 1)
        then (Throw e, h0 ++ retry_calls workflow (S i))
        else retry_loop respond left (S i) workflow
               (h0 ++ retry_calls workflow (S i))
    | Hang => (Hang, h0 ++ retry_calls workflow (S i))
    end.
Proof.
  intros Hsleep. simpl. sr. rewrite Hsleep.
  unfold attempt_outcome. rewrite retry_calls_S, !app_assoc.
  destruct (respond _ (executeWorkflow workflow));
    rewrite <- (app_assoc _ [sleep _] [executeWorkflow _]); simpl; [done| |done].
  case_bool_decide; done.
Qed.

Lemma retry_loop_failures k h0 :
  sleeps_return respond → k < maxRetries →
  (∀ i, i < k → ∃ e, attempt_outcome respond workflow h0 i = Throw e) →
  retry_loop respond maxRetries 0 workflow h0
  = retry_loop respond (maxRetries - k) k workflow
      (h0 ++ retry_calls workflow k).
Proof.
  intros Hsleep. induction k as [|k IH]; intros Hk Hfail.
  - simpl. by rewrite app_nil_r.
  - rewrite IH; [|lia|intros i Hi; apply Hfail; lia].
    destruct (Hfail k) as [e He]; [lia|].
    replace (maxRetries - k) with (S (maxRetries - S k)) by lia.
    rewrite retry_loop_step by done. rewrite He.
    rewrite bool_decide_eq_false_2; [done|]. unfold maxRetries in *. lia.
Qed.

(** The attempt that succeeds ends the strategy, after the delays
    1000, 2000, ... ms before the attempts made so far. *)
Lemma retry_succeeds_at k v h0 :
  sleeps_return respond → k < maxRetries →
  (∀ i, i < k → ∃ e, attempt_outcome respond workflow h0 i = Throw e) →
  attempt_outcome respond workflow h0 k = Ok v →
  exponential_backoff_retry respond workflow context error h0
  = (Ok v, h0 ++ retry_calls workflow (S k)).
Proof.
  intros Hsleep Hk Hfail Hok. unfold exponential_backoff_retry.
  rewrite (retry_loop_failures k) by done.
  replace (maxRetries - k) with (S (maxRetries - S k)) by lia.
  rewrite retry_loop_step by done. by rewrite Hok.
Qed.

(** C5.  With every attempt failing, the retry strategy sleeps
    [2^i * 1000] ms before attempt [i] for i = 0..4, throws the error of the
    fifth attempt without a sixth, and [autoRecover] goes on with the rest of
    the chain, checkpoint_rollback first. *)
Theorem backoff_schedule h j :
  sleeps_return respond →
  (∀ i, i < 5 → ∃ e, attempt_outcome respond workflow h i = Throw e) →
  ∃ e,
    attempt_outcome respond workflow h 4 = Throw e
    ∧ exponential_backoff_retry respond workflow context error h
      = (Throw e, h ++ retry_calls workflow 5)
    ∧ retry_calls workflow 5
      = [sleep 1000; executeWorkflow workflow;
         sleep 2000; executeWorkflow workflow;
         sleep 4000; executeWorkflow workflow;
         sleep 8000; executeWorkflow workflow;
         sleep 16000; executeWorkflow workflow]
    ∧ autoRecover respond (registerRecoveryStrategies respond registry)
        error workflow context {| calls := h; console := j |}
      = autoRecover_over respond (registerRecoveryStrategies respond registry)
          (tail strategies) error workflow context
          {| calls := h ++ retry_calls workflow 5;
             console := j ++ [Attempting "exponential_backoff_retry";
                              FailedTryingNext "exponential_backoff_retry"] |}
    ∧ (tail strategies).*1
      = ["checkpoint_rollback"; "alternate_path_routing"; "graceful_degradation"].
Proof.
  intros Hsleep Hfail. destruct (Hfail 4) as [e He]; [lia|]. exists e.
  assert (exponential_backoff_retry respond workflow context error h
          = (Throw e, h ++ retry_calls workflow 5)) as Hretry.
  { unfold exponential_backoff_retry.
    rewrite (retry_loop_failures 4); [|done|unfold maxRetries; lia|].
    - change (maxRetries - 4) with 1.
      rewrite retry_loop_step by done. by rewrite He.
    - intros i Hi. apply Hfail. lia. }
  split_and!; [done|done|done| |done].
  assert (invoke (registerRecoveryStrategies respond registry)
            "exponential_backoff_retry" workflow context error h
          = (Throw e, h ++ retry_calls workflow 5)) as Hinv.
  { unfold invoke, registerRecoveryStrategies.
    rewrite !lookup_insert_ne by done. rewrite lookup_insert_eq. exact Hretry. }
  unfold autoRecover, strategies.
  change (autoRecover_over ?r ?reg ((?n, ?w) :: ?rest) ?e ?wf ?c)
    with (r0 ← attempt r reg n wf c e;
          match r0 with
          | Some recovered => mret recovered
          | None => autoRecover_over r reg rest e wf c
          end).
  unfold mbind at 1, sr_bind.
  by rewrite (attempt_throw _ _ _ _ _ _ _ _ _ j Hinv).
Qed.

End Retry.

(** ** How the chain can end *)

Section Shape.
Context (respond : history → call → result value).
Context (registry : gmap string strategy).
Context (workflow : value) (context : Context).

Lemma attempted_snoc_other c l :
  match l with Attempting _ => False | _ => True end →
  attempted (c ++ [l]) = attempted c.
Proof.
  intros Hl. rewrite attempted_app. destruct l; simpl; try done.
  all: by rewrite app_nil_r.
Qed.

(** One pass of the loop of [autoRecover] never throws. *)
Lemma attempt_shape name error w :
  ∃ w', attempted (console w') = attempted (console w) ++ [name]
        ∧ (attempt respond registry name workflow context error w = (Ok None, w')
           ∨ (∃ v, attempt respond registry name workflow context error w
                   = (Ok (Some v), w') ∧ truthy v = true)
           ∨ attempt respond registry name workflow context error w = (Hang, w')).
Proof.
  destruct w as [h j]. unfold attempt. sr. simpl.
  destruct (invoke registry name workflow context error h) as [[v|e|] h'];
    simpl.
  - destruct (truthy v) eqn:Hv; simpl.
    + destruct (respond h' (updateModel context true (Some name))) as [u|x|];
        simpl; eexists; (split; [|eauto]); simpl;
        rewrite ?attempted_snoc_other by done; by rewrite attempted_app.
    + eexists; (split; [|eauto]); simpl. by rewrite attempted_app.
  - eexists; (split; [|eauto]); simpl.
    rewrite attempted_snoc_other by done. by rewrite attempted_app.
  - eexists; (split; [|eauto]); simpl. by rewrite attempted_app.
Qed.

Lemma autoRecover_over_shape (l : list (string * Q)) error w :
  ∃ k w',
    k ≤ length l
    ∧ attempted (console w') = attempted (console w) ++ take k l.*1
    ∧ (autoRecover_over respond registry l error workflow context w
       = (Ok VNull, w') ∧ k = length l
       ∨ (∃ v, autoRecover_over respond registry l error workflow context w
               = (Ok v, w') ∧ truthy v = true)
       ∨ autoRecover_over respond registry l error workflow context w
         = (Hang, w')).
Proof.
  revert w. induction l as [|[name weight] l IH]; intros w.
  - exists 0, w. split_and!; [done|by rewrite app_nil_r|]. by left.
  - destruct (attempt_shape name error w) as (w1 & Hatt & Hcases).
    cbn [autoRecover_over]. sr.
    destruct Hcases as [Hnone|[(v & Hsome & Hv)|Hhang]].
    + destruct (IH w1) as (k & w' & Hk & Hatt' & Hres).
      exists (S k), w'. rewrite Hnone. split_and!.
      * simpl. lia.
      * rewrite Hatt', Hatt. simpl. by rewrite <- app_assoc.
      * destruct Hres as [[? ->]|[?|?]]; eauto.
    + exists 1, w1. rewrite Hsome. split_and!; [simpl; lia|done|].
      right. left. eauto.
    + exists 1, w1. rewrite Hhang. split_and!; [simpl; lia|done|]. eauto.
Qed.

Lemma recover_or_rethrow_unfold e0 w1 :
  recover_or_rethrow respond registry workflow context e0 w1
  = match autoRecover respond registry e0 workflow context
            {| calls := calls w1; console := console w1 ++ [FailureDetected] |}
    with
    | (Ok v, w2) => if truthy v then (Ok v, w2) else (Throw e0, w2)
    | (Throw x, w2) => (Throw x, w2)
    | (Hang, w2) => (Hang, w2)
    end.
Proof.
  unfold recover_or_rethrow. sr.
  change (log FailureDetected w1)
    with (Ok tt, {| calls := calls w1;
                    console := console w1 ++ [FailureDetected] |}).
  cbv beta iota.
  destruct (autoRecover _ _ _ _ _ _) as [[v|x|] w2]; [|done|done].
  by destruct (truthy v).
Qed.

End Shape.

(** ** The predictor *)

Section Predictor.
Context (respond : history → call → result value).
Context (registry : gmap string strategy).
Context (makeContext : history → value → result Context).
Context (workflow : value).

Lemma executeWithSelfHealing_call_unfold h j context :
  makeContext h workflow = Ok context →
  executeWithSelfHealing_call respond registry makeContext workflow
    {| calls := h; console := j |}
  = executeWithSelfHealing respond registry workflow context
      {| calls := h ++ [createExecutionContext workflow]; console := j |}.
Proof.
  intros Hctx. unfold executeWithSelfHealing_call, newContext. sr. simpl.
  by rewrite Hctx.
Qed.

(** C9, as the code has it.  [executeWithSelfHealing] is called with the
    calls [h] made and the lines [j] logged so far, and the context is
    made.  When the predictor throws [e], the [try] block ends at that call,
    before [executeWithMonitoring]; the line of the [catch] block is logged
    and [autoRecover] runs the recovery chain for [e]; what the call leaves
    behind is what the chain leaves behind; and the call returns the truthy
    value the chain answers with, throws [e] when the chain answers [null],
    and does not return when the chain does not.  When the predictor never
    answers, the call never returns: nothing bounds the wait. *)
Theorem predictor_failure_is_recovered h j context :
  makeContext h workflow = Ok context →
  let h0 := h ++ [createExecutionContext workflow] in
  let h1 := h0 ++ [predictor context] in
  let run := executeWithSelfHealing_call respond registry makeContext workflow
               {| calls := h; console := j |} in
  (∀ e, respond h0 (predictor context) = Throw e →
     let recovery := autoRecover respond registry e workflow context
                       {| calls := h1; console := j ++ [FailureDetected] |} in
     monitored_execution respond workflow context
       {| calls := h0; console := j |}
     = (Throw e, {| calls := h1; console := j |})
     ∧ run.2 = recovery.2
     ∧ (recovery.1 = Ok VNull ∧ run.1 = Throw e
        ∨ (∃ v, recovery.1 = Ok v ∧ truthy v = true ∧ run.1 = Ok v)
        ∨ recovery.1 = Hang ∧ run.1 = Hang))
  ∧ (respond h0 (predictor context) = Hang →
     run = (Hang, {| calls := h1; console := j |})).
Proof.
  intros Hctx h0 h1 run. subst run.
  rewrite (executeWithSelfHealing_call_unfold _ _ _ Hctx). fold h0.
  split.
  - intros e He recovery.
    assert (monitored_execution respond workflow context
              {| calls := h0; console := j |}
            = (Throw e, {| calls := h1; console := j |})) as Hbody.
    { unfold monitored_execution, predictFailures. sr. simpl. by rewrite He. }
    split; [done|].
    unfold executeWithSelfHealing, try_catch. rewrite Hbody.
    rewrite recover_or_rethrow_unfold. simpl calls. simpl console.
    fold recovery.
    destruct (autoRecover_over_shape respond registry workflow context
                strategies e {| calls := h1; console := j ++ [FailureDetected] |})
      as (k & w2 & _ & _ & Hres).
    fold (autoRecover respond registry e workflow context) in Hres.
    fold recovery in Hres.
    destruct Hres as [[Hres _]|[(v & Hres & Hv)|Hres]]; rewrite Hres; simpl.
    + split; [done|]. by left.
    + rewrite Hv. split; [done|]. right. left. by exists v.
    + split; [done|]. by right; right.
  - intros He. unfold executeWithSelfHealing, monitored_execution,
      predictFailures. sr. simpl. by rewrite He.
Qed.

End Predictor.

(** ** The theorems at work *)

Ltac fails_by_throw := eapply all_fail_throw; [vm_compute; reflexivity|].

Lemma autoRecover_first_success_rollback :
  ∃ j',
    autoRecover_over rollback_works (registerRecoveryStrategies rollback_works ∅)
      ((fun n => (n, 1%Q)) <$> names) (VString "boom") (VObject 0) context0 start
    = (Ok (VObject 2),
       {| calls := (retry_calls (VObject 0) 5
                    ++ [executeFromCheckpoint (VObject 0) VUndefined])
                   ++ [updateModel context0 true (Some "checkpoint_rollback")];
          console := j' |})
    ∧ autoRecover rollback_works (registerRecoveryStrategies rollback_works ∅)
        (VString "boom") (VObject 0) context0 start
      = (Ok (VObject 2),
         {| calls := (retry_calls (VObject 0) 5
                      ++ [executeFromCheckpoint (VObject 0) VUndefined])
                     ++ [updateModel context0 true (Some "checkpoint_rollback")];
            console := j' |})
    ∧ attempted j'
      = attempted [] ++ ["exponential_backoff_retry"] ++ ["checkpoint_rollback"].
Proof.
  apply (autoRecover_first_success rollback_works
           (registerRecoveryStrategies rollback_works ∅)
           (VObject 0) context0 (VString "boom") (fun _ => 1%Q)
           ["exponential_backoff_retry"] "checkpoint_rollback"
           ["alternate_path_routing"; "graceful_degradation"]
           [] (retry_calls (VObject 0) 5)
           (retry_calls (VObject 0) 5
            ++ [executeFromCheckpoint (VObject 0) VUndefined])
           (VObject 2) VUndefined []).
  - reflexivity.
  - fails_by_throw. apply all_fail_nil.
  - vm_compute. reflexivity.
  - reflexivity.
  - reflexivity.
Defined.

Lemma recovery_exhausted_rethrows_all_down :
  ∃ h' j',
    all_fail (registerRecoveryStrategies (flaky 9) ∅) (VObject 0)
      context0 (VString "boom") names [] h'
    ∧ recover_or_rethrow (flaky 9) (registerRecoveryStrategies (flaky 9) ∅)
        (VObject 0) context0 (VString "boom") start
      = (Throw (VString "boom"), {| calls := h'; console := j' |})
    ∧ attempted j' = names.
Proof.
  eassert (all_fail (registerRecoveryStrategies (flaky 9) ∅)
             (VObject 0) context0 (VString "boom") names [] _) as Hfail.
  { do 4 fails_by_throw. apply all_fail_nil. }
  destruct (recovery_exhausted_rethrows (flaky 9)
              (registerRecoveryStrategies (flaky 9) ∅) (VObject 0) context0
              (VString "boom") [] _ [] Hfail) as (j' & _ & Hatt & Hcatch & _).
  eexists _, j'. split_and!; [exact Hfail|exact Hcatch|exact Hatt].
Defined.

Lemma flaky_sleeps n : sleeps_return (flaky n).
Proof. intros h ms. reflexivity. Qed.

Lemma flaky_9_fails i :
  i < 5 → ∃ e, attempt_outcome (flaky 9) (VObject 0) [] i = Throw e.
Proof.
  intros Hi. do 5 (destruct i as [|i]; [eexists; vm_compute; reflexivity|]). lia.
Qed.

Lemma backoff_schedule_all_down :
  ∃ e,
    attempt_outcome (flaky 9) (VObject 0) [] 4 = Throw e
    ∧ exponential_backoff_retry (flaky 9) (VObject 0) context0 (VString "boom") []
      = (Throw e, [] ++ retry_calls (VObject 0) 5).
Proof.
  destruct (backoff_schedule (flaky 9) ∅ (VObject 0) context0 (VString "boom")
              [] [] (flaky_sleeps 9) flaky_9_fails) as (e & He & Hretry & _).
  exists e. split; [exact He|exact Hretry].
Defined.

(** Two failures, then success: delays of 1, 2 and 4 seconds, and the first
    strategy is the only one attempted. *)
Lemma third_attempt_succeeds :
  exponential_backoff_retry (flaky 2) (VObject 0) context0 (VString "boom") []
  = (Ok (VObject 1),
     [sleep 1000; executeWorkflow (VObject 0);
      sleep 2000; executeWorkflow (VObject 0);
      sleep 4000; executeWorkflow (VObject 0)])
  ∧ attempted
      (console (autoRecover (flaky 2) (registerRecoveryStrategies (flaky 2) ∅)
                  (VString "boom") (VObject 0) context0 start).2)
    = ["exponential_backoff_retry"].
Proof. split; vm_compute; reflexivity. Qed.

Lemma predictor_failure_is_recovered_down :
  let run := executeWithSelfHealing_call predictor_down
               (registerRecoveryStrategies predictor_down ∅) fresh_context
               (VObject 0) start in
  let recovery := autoRecover predictor_down
                    (registerRecoveryStrategies predictor_down ∅)
                    (VString "PredictorUnavailableError") (VObject 0) context0
                    {| calls := ([] ++ [createExecutionContext (VObject 0)])
                                ++ [predictor context0];
                       console := [] ++ [FailureDetected] |} in
  run.2 = recovery.2
  ∧ (recovery.1 = Ok VNull
     ∧ run.1 = Throw (VString "PredictorUnavailableError")
     ∨ (∃ v, recovery.1 = Ok v ∧ truthy v = true ∧ run.1 = Ok v)
     ∨ recovery.1 = Hang ∧ run.1 = Hang).
Proof.
  exact (proj2 (proj1 (predictor_failure_is_recovered predictor_down
                         (registerRecoveryStrategies predictor_down ∅)
                         fresh_context (VObject 0) [] [] context0 eq_refl)
                  (VString "PredictorUnavailableError") eq_refl)).
Defined.

(** C9, as the claim has it: the predictor is down and the workflow is
    healthy.  The claim lets the run go on as with probability 0, through
    [executeWithMonitoring].  The code never calls [executeWithMonitoring]:
    it logs a failure, sleeps a second in the retry strategy and returns
    what [executeWorkflow] answers there. *)
Lemma predictor_down_is_a_failure :
  executeWithSelfHealing_call predictor_down
    (registerRecoveryStrategies predictor_down ∅) fresh_context (VObject 0) start
  = (Ok (VObject 7),
     {| calls := [createExecutionContext (VObject 0);
                  predictor context0;
                  sleep 1000;
                  executeWorkflow (VObject 0);
                  updateModel context0 true (Some "exponential_backoff_retry")];
        console := [FailureDetected;
                    Attempting "exponential_backoff_retry";
                    Successful "exponential_backoff_retry"] |}).
Proof. vm_compute. reflexivity. Qed.

(** C4, as the code has it.  Every strategy recovers the workflow, and the
    model update that follows each success throws.  [autoRecover] reports
    each strategy as successful and as failed, goes on to the next one
    after each success, and answers [null]: no outcome of a successful
    strategy is returned, and three strategies are invoked after the first
    success. *)
Theorem successful_recovery_dropped :
  autoRecover model_down (registerRecoveryStrategies model_down ∅)
    (VString "boom") (VObject 0) context0 start
  = (Ok VNull,
     {| calls := [sleep 1000;
                  executeWorkflow (VObject 0);
                  updateModel context0 true (Some "exponential_backoff_retry");
                  executeFromCheckpoint (VObject 0) VUndefined;
                  updateModel context0 true (Some "checkpoint_rollback");
                  findAlternatePath (VObject 0) VUndefined;
                  executeAlternatePath (VObject 0) (VString "detour");
                  updateModel context0 true (Some "alternate_path_routing");
                  executeWithDegradedFeatures (VObject 0) context0;
                  updateModel context0 true (Some "graceful_degradation")];
        console := [Attempting "exponential_backoff_retry";
                    Successful "exponential_backoff_retry";
                    FailedTryingNext "exponential_backoff_retry";
                    Attempting "checkpoint_rollback";
                    Successful "checkpoint_rollback";
                    FailedTryingNext "checkpoint_rollback";
                    Attempting "alternate_path_routing";
                    Successful "alternate_path_routing";
                    FailedTryingNext "alternate_path_routing";
                    Attempting "graceful_degradation";
                    Successful "graceful_degradation";
                    FailedTryingNext "graceful_degradation"] |}).
Proof. vm_compute. reflexivity. Qed.

End HealingFacts.

(** * More about the task graph *)

Module GraphExtras.
Import TaskGraph GraphFacts.

(** ** The order of [getReadyTasks] *)

Lemma positive_q_spec a b :
  positive_q (compareFn a b) = true ↔ (priority a < priority b)%Q.
Proof.
  unfold positive_q, compareFn. rewrite negb_true_iff.
  rewrite <- not_true_iff_false, Qle_bool_iff. split.
  - intros H. apply Qnot_le_lt in H. lra.
  - intros H Hle. lra.
Qed.

Lemma sort_insert_sorted x l :
  StronglySorted (fun a b => (priority b <= priority a)%Q) l →
  StronglySorted (fun a b => (priority b <= priority a)%Q) (sort_insert x l).
Proof.
  induction 1 as [|y ys Hys IH Hy]; simpl.
  - repeat constructor.
  - destruct (positive_q (compareFn x y)) eqn:Hcmp.
    + apply positive_q_spec in Hcmp. constructor; [done|].
      rewrite sort_insert_perm. constructor; [lra|done].
    + apply not_true_iff_false in Hcmp. rewrite positive_q_spec in Hcmp.
      apply Qnot_lt_le in Hcmp.
      constructor; [by constructor|]. constructor; [done|].
      eapply Forall_impl; [exact Hy|]. intros z Hz. simpl in Hz. lra.
Qed.

Lemma sort_sorted l :
  StronglySorted (fun a b => (priority b <= priority a)%Q) (sort l).
Proof.
  induction l as [|x l IH]; simpl; [constructor|]. by apply sort_insert_sorted.
Qed.

Lemma with_priority_sort_insert q x l :
  with_priority q (sort_insert x l) = with_priority q (x :: l).
Proof.
  induction l as [|y ys IH]; [done|]. simpl.
  destruct (positive_q (compareFn x y)) eqn:Hcmp; [|done].
  apply positive_q_spec in Hcmp.
  unfold with_priority in *. simpl in *. rewrite IH.
  destruct (Qeq_bool (priority x) q) eqn:Hx, (Qeq_bool (priority y) q) eqn:Hy;
    try done.
  apply Qeq_bool_iff in Hx, Hy. lra.
Qed.

Lemma with_priority_sort q l : with_priority q (sort l) = with_priority q l.
Proof.
  induction l as [|x l IH]; [done|]. simpl.
  rewrite with_priority_sort_insert. unfold with_priority in *. simpl.
  by rewrite IH.
Qed.

(** X1.  [getReadyTasks] lists the started-dependency nodes by priority,
    highest first, and nodes of equal priority in the order in which the
    graph holds them. *)
Theorem getReadyTasks_sorted_stable g :
  StronglySorted (fun a b => (priority b <= priority a)%Q) (getReadyTasks g)
  ∧ getReadyTasks g ≡ₚ List.filter (deps_started g) (map_values (nodes g))
  ∧ ∀ q, with_priority q (getReadyTasks g)
         = with_priority q (List.filter (deps_started g) (map_values (nodes g))).
Proof.
  unfold getReadyTasks. split_and!.
  - apply sort_sorted.
  - apply sort_perm.
  - intros q. apply with_priority_sort.
Qed.

(** ** Invariants of the loop *)

Lemma run_loop_invariant (I : Run → Prop) :
  (∀ st, I st → I (launch st)) →
  (∀ ev st, I st → I (settle ev st)) →
  (∀ ev st st', I st → await_race ev st = inl st' → I st') →
  ∀ sched st, I st → I (final (run_loop sched st)).
Proof.
  intros Hlaunch Hsettle Hawait. induction sched as [|ev sched IH]; intros st HI.
  - simpl. by destruct (loop_cond st).
  - simpl. destruct (loop_cond st); [|done].
    destruct (await_race ev (launch st)) as [st'|o] eqn:Haw.
    + apply IH. eapply Hawait; [|done]. by apply Hlaunch.
    + unfold await_race in Haw.
      destruct (race ev (launch st)) as [[p []]|]; simplify_eq/=.
      * by apply Hsettle, Hlaunch.
      * by apply Hlaunch.
Qed.

Lemma launch_ready_maxConcurrency rdy st :
  maxConcurrency (graph (launch_ready rdy st)) = maxConcurrency (graph st).
Proof.
  revert st. induction rdy as [|t rdy IH]; intros st; simpl; [done|].
  case_bool_decide; [|done]. by rewrite IH.
Qed.

Lemma launch_ready_executing rdy st :
  length (executing st) ≤ maxConcurrency (graph st) →
  length (executing (launch_ready rdy st)) ≤ maxConcurrency (graph st).
Proof.
  revert st. induction rdy as [|t rdy IH]; intros st Hle; simpl; [done|].
  case_bool_decide as Hlt; [|done].
  change (maxConcurrency (graph st))
    with (maxConcurrency (graph (dispatch t st))).
  apply IH. simpl. rewrite length_app. simpl. lia.
Qed.

Lemma splice1_length index l : length (splice1 index l) ≤ length l.
Proof.
  unfold splice1. rewrite length_app, length_take, length_drop. lia.
Qed.

Lemma build_maxConcurrency workflow g :
  maxConcurrency (build workflow g) = maxConcurrency g.
Proof.
  revert g. induction workflow as [|n w IH]; intros g; simpl; [done|].
  by rewrite IH.
Qed.

(** X2.  The array [executing] never holds more promises than
    [maxConcurrency], at the head of the loop and after each launch, for any
    graph and any behaviour of the agents. *)
Theorem executing_within_maxConcurrency workflow sched g :
  let st := final (executeAsync sched workflow g) in
  length (executing st) ≤ maxConcurrency g
  ∧ length (executing (launch st)) ≤ maxConcurrency g.
Proof.
  intros st.
  assert (∀ st0, within_limit (maxConcurrency g) st0 →
                 within_limit (maxConcurrency g) (launch st0)) as Hlaunch.
  { intros st0 [Hmax Hle]. unfold launch. split.
    - by rewrite launch_ready_maxConcurrency.
    - rewrite <- Hmax. apply launch_ready_executing. by rewrite Hmax. }
  assert (within_limit (maxConcurrency g) st) as Hst.
  { subst st. unfold executeAsync.
    apply (run_loop_invariant (within_limit (maxConcurrency g))); [done| | |].
    - intros ev st0 HI. exact HI.
    - intros ev st0 st' [Hmax Hle]. unfold await_race.
      destruct (race ev st0) as [[p []]|]; intros [= <-]; simpl.
      split; [done|]. etrans; [apply splice1_length|done].
    - split; simpl; [apply build_maxConcurrency|lia]. }
  split; [apply Hst|]. by apply Hlaunch.
Qed.

(** ** Dependencies are started first *)

Lemma ids_app d1 d2 : ids (d1 ++ d2) = ids d1 ++ ids d2.
Proof. unfold ids. apply fmap_app. Qed.

Lemma dependencies_first_snoc d p t :
  dependencies_first d →
  Forall (fun dep => dep ∈ ids d) (dependencies t) →
  dependencies_first (d ++ [(p, t)]).
Proof.
  intros Hd Ht l1 e l2 Heq.
  destruct l2 as [|y l2 _] using rev_ind.
  - apply (app_inj_tail d l1) in Heq as [-> <-]. done.
  - rewrite app_comm_cons, app_assoc in Heq.
    apply app_inj_tail in Heq as [-> _]. by eapply Hd.
Qed.

Lemma deps_in_pool_set g k p t :
  deps_in_pool g t → deps_in_pool (pool_set k p g) t.
Proof.
  intros H. apply deps_started_spec, pool_set_started. by apply deps_started_spec.
Qed.

Lemma launch_ready_started_first rdy st :
  Forall (deps_in_pool (graph st)) rdy → started_first st →
  started_first (launch_ready rdy st)
  ∧ Forall (deps_in_pool (graph (launch_ready rdy st)))
           (ready (launch_ready rdy st)).
Proof.
  revert st. induction rdy as [|t rdy IH]; intros st Hrdy [Hpool Hfirst]; simpl.
  - split; [done|]. simpl. constructor.
  - apply Forall_cons in Hrdy as [Ht Hrdy]. case_bool_decide.
    + apply IH.
      * simpl. eapply Forall_impl; [exact Hrdy|]. intros t'.
        apply deps_in_pool_set.
      * split; simpl.
        -- intros k Hk. rewrite ids_app. apply elem_of_app.
           destruct (decide (id t = k)) as [<-|Hne].
           ++ right. unfold ids. simpl. left.
           ++ left. apply Hpool. by rewrite lookup_insert_ne in Hk.
        -- apply dependencies_first_snoc; [done|].
           eapply Forall_impl; [exact Ht|]. intros dep. apply Hpool.
    + split; [done|]. simpl. by constructor.
Qed.

Lemma getReadyTasks_deps_in_pool g : Forall (deps_in_pool g) (getReadyTasks g).
Proof.
  apply Forall_forall. intros t [_ Ht]%elem_of_getReadyTasks.
  by apply deps_started_spec.
Qed.

(** X3.  On a fresh graph a task is dispatched only after every one of its
    dependencies has been dispatched: each dependency id of a dispatched task
    is the id of a task dispatched earlier in the run. *)
Theorem dependencies_dispatched_first workflow sched l1 e l2 :
  dispatched (final (executeAsync sched workflow new_graph)) = l1 ++ e :: l2 →
  Forall (fun dep => dep ∈ ids l1) (dependencies e.2).
Proof.
  intros Heq.
  assert (started_first_ready (final (executeAsync sched workflow new_graph)))
    as [[_ Hfirst] _]; [|by eapply Hfirst].
  unfold executeAsync. apply (run_loop_invariant started_first_ready).
  - intros st [Hst Hrdy]. by apply launch_ready_started_first.
  - intros ev st HI. exact HI.
  - intros ev st st' [Hst Hrdy]. unfold await_race.
    destruct (race ev st) as [[p []]|]; intros [= <-]; simpl.
    split; [done|]. simpl. apply Forall_app. split; [done|].
    apply getReadyTasks_deps_in_pool.
  - split; [split|]; simpl.
    + intros k. rewrite build_pool. simpl. rewrite lookup_empty.
      by intros [? ?].
    + intros l1' e' l2' H. by destruct l1'.
    + apply getReadyTasks_deps_in_pool.
Qed.

Lemma dependencies_dispatched_first_fork :
  dispatched (final (executeAsync [[(1, Fulfilled)]; [(0, Fulfilled)]]
                       fork new_graph))
  = [(0, task "A" [] 9); (1, task "A2" [] 8); (2, task "A" [] 9);
     (3, task "A2" [] 8)] ++ (4, task "B" ["A"] 7) :: []
  ∧ Forall (fun dep => dep ∈ ["A"; "A2"; "A"; "A2"])
           (dependencies (task "B" ["A"] 7)).
Proof.
  assert (dispatched (final (executeAsync [[(1, Fulfilled)]; [(0, Fulfilled)]]
                               fork new_graph))
          = [(0, task "A" [] 9); (1, task "A2" [] 8); (2, task "A" [] 9);
             (3, task "A2" [] 8)] ++ (4, task "B" ["A"] 7) :: []) as Heq.
  { vm_compute. reflexivity. }
  split; [exact Heq|].
  exact (dependencies_dispatched_first fork _ _ _ _ Heq).
Defined.

(** ** When the call returns, when it throws *)




(** X5.  [executeAsync] throws only when the promise of an agent rejects:
    while every promise that settles is fulfilled, the call does not throw,
    for any workflow and any graph. *)
Theorem executeAsync_throws_only_on_rejection workflow sched g st :
  no_rejection sched → executeAsync sched workflow g ≠ Thrown st.
Proof.
  intros Hsched. apply run_loop_not_thrown; [done|].
  intros p s. simpl. by rewrite lookup_empty.
Qed.

Lemma executeAsync_throws_only_on_rejection_fork :
  no_rejection [[(1, Fulfilled)]; [(0, Fulfilled)]]
  ∧ executeAsync [[(1, Fulfilled)]; [(0, Fulfilled)]] fork new_graph
    ≠ Thrown (enter fork new_graph).
Proof.
  assert (no_rejection [[(1, Fulfilled)]; [(0, Fulfilled)]]) as H
      by repeat constructor.
  split; [exact H|].
  exact (executeAsync_throws_only_on_rejection fork _ new_graph _ H).
Defined.

(** ** A dependency that names no node *)

Lemma waits_for_closed g d :
  well_keyed (nodes g) →
  (∀ n, n ∈ map_values (nodes g) → id n ≠ d) →
  closed (waits_for g d) g.
Proof.
  intros [Hnd Hid] Hmissing node Hin [Heq|(node' & Hk & Hd)].
  - by destruct (Hmissing node Hin).
  - apply list_elem_of_fmap in Hin as ([k n] & -> & Hin). simpl in *.
    rewrite (Hid _ _ Hin) in Hk.
    rewrite (keyed_functional _ _ _ _ Hnd Hin Hk).
    exists d. split; [done|]. by left.
Qed.

(** X6.  On a fresh graph a node one of whose dependencies is the id of no
    node of the workflow is never dispatched and never enters the pool. *)
Theorem missing_dependency_never_dispatched workflow sched node d :
  node ∈ map_values (nodes (build workflow new_graph)) →
  d ∈ dependencies node →
  (∀ n, n ∈ map_values (nodes (build workflow new_graph)) → id n ≠ d) →
  let st := final (executeAsync sched workflow new_graph) in
  (id node ∉ ids (dispatched st))
  ∧ executionPool (graph st) !! id node = None.
Proof.
  intros Hin Hd Hmissing st.
  set (g := build workflow new_graph) in *.
  assert (closed (waits_for g d) g) as Hclosed.
  { apply waits_for_closed; [|done].
    apply build_well_keyed, new_graph_well_keyed. }
  assert (avoids (waits_for g d) st) as (Hpool & _ & Hdisp).
  { apply run_loop_avoids; [done|]. apply enter_avoids; [done|].
    intros k _. by rewrite build_pool. }
  assert (waits_for g d (id node)) as Hw.
  { right. exists node. split; [|done].
    apply list_elem_of_fmap in Hin as ([k n] & -> & Hin).
    destruct (build_well_keyed workflow new_graph new_graph_well_keyed)
      as [_ Hid].
    simpl. by rewrite (Hid _ _ Hin). }
  split.
  - intros (e & Heq & He)%list_elem_of_fmap. apply (Hdisp e He).
    by rewrite <- Heq.
  - by apply Hpool.
Qed.

Lemma missing_dependency_never_dispatched_orphan :
  let workflow := [task "A" [] 5; task "B" ["Z"] 5] in
  let st := final (executeAsync [[(0, Fulfilled)]; [(1, Fulfilled)]]
                     workflow new_graph) in
  ("B" ∉ ids (dispatched st)) ∧ executionPool (graph st) !! "B" = None.
Proof.
  apply (missing_dependency_never_dispatched
           [task "A" [] 5; task "B" ["Z"] 5] _ (task "B" ["Z"] 5) "Z").
  - vm_compute. set_solver.
  - set_solver.
  - intros n Hn. vm_compute in Hn.
    apply elem_of_cons in Hn as [->|Hn]; [done|].
    apply list_elem_of_singleton in Hn as ->. done.
Defined.

(** ** The map of nodes that [executeAsync] builds *)

Lemma build_snoc workflow n g :
  build (workflow ++ [n]) g = nodes_set n (build workflow g).
Proof. unfold build. by rewrite foldl_app. Qed.

Lemma map_set_keys k v m :
  (map_set k v m).*1 = if decide (k ∈ m.*1) then m.*1 else m.*1 ++ [k].
Proof.
  induction m as [|[k' v'] m IH].
  - destruct (decide (k ∈ ([] : list (string * TaskNode)).*1)) as [H|_];
      [by apply not_elem_of_nil in H|done].
  - cbn [map_set]. destruct (decide (k' = k)) as [->|Hne].
    + destruct (decide (k ∈ ((k, v') :: m).*1)) as [_|H]; [done|].
      destruct H. left.
    + change (((k', v') :: map_set k v m).*1) with (k' :: (map_set k v m).*1).
      rewrite IH. change (((k', v') :: m).*1) with (k' :: m.*1).
      destruct (decide (k ∈ m.*1)) as [Hin|Hnin];
        destruct (decide (k ∈ k' :: m.*1)) as [Hin'|Hnin']; try done.
      * destruct Hnin'. by right.
      * apply elem_of_cons in Hin' as [->|?]; done.
Qed.

Lemma map_set_lookup k v m k' v' :
  NoDup m.*1 →
  (k', v') ∈ map_set k v m ↔
  (k' = k ∧ v' = v) ∨ (k' ≠ k ∧ (k', v') ∈ m).
Proof.
  induction m as [|[k1 v1] m IH]; simpl; intros Hnd.
  - rewrite list_elem_of_singleton. split.
    + intros [= -> ->]. by left.
    + intros [[-> ->]|[_ H]]; [done|]. by apply not_elem_of_nil in H.
  - apply NoDup_cons in Hnd as [Hk1 Hnd].
    destruct (decide (k1 = k)) as [->|Hne].
    + rewrite !elem_of_cons. split.
      * intros [[= -> ->]|Hin]; [by left|]. right.
        split; [|by right]. intros ->. apply Hk1.
        apply list_elem_of_fmap. by exists (k, v').
      * intros [[-> ->]|[Hne [[= ? ?]|Hin]]]; [by left|done|by right].
    + rewrite !elem_of_cons, IH by done. split.
      * intros [[= -> ->]|[[-> ->]|[Hk Hin]]].
        -- right. split; [done|]. by left.
        -- by left.
        -- right. split; [done|]. by right.
      * intros [[-> ->]|[Hk [[= -> ->]|Hin]]].
        -- right. by left.
        -- by left.
        -- right. right. done.
Qed.

Lemma first_declared_snoc workflow n :
  first_declared (workflow ++ [n])
  = if decide (id n ∈ first_declared workflow) then first_declared workflow
    else first_declared workflow ++ [id n].
Proof.
  unfold first_declared. rewrite fmap_app, reverse_app.
  change (reverse (id <$> [n])) with [id n]. cbn [app remove_dups].
  destruct (decide_rel elem_of (id n) (reverse (id <$> workflow))) as [Hin|Hnin];
    destruct (decide (id n ∈ reverse (remove_dups (reverse (id <$> workflow)))))
      as [Hin'|Hnin']; try done.
  - destruct Hnin'. by rewrite elem_of_reverse, elem_of_remove_dups.
  - destruct Hnin. by rewrite elem_of_reverse, elem_of_remove_dups in Hin'.
  - by rewrite reverse_cons.
Qed.

Lemma last_declared_snoc k workflow n :
  last_declared k (workflow ++ [n])
  = if decide (id n = k) then Some n else last_declared k workflow.
Proof.
  unfold last_declared. rewrite List.filter_app. simpl.
  destruct (decide (id n = k)) as [Heq|Hne].
  - rewrite bool_decide_eq_true_2 by done. by rewrite last_snoc.
  - rewrite bool_decide_eq_false_2 by done. by rewrite app_nil_r.
Qed.

(** X7.  The map of nodes built from a workflow on a fresh graph holds each
    id once, in the order in which the ids are first declared, and under each
    id the node that the workflow declares last with it. *)
Theorem build_keeps_last_declaration workflow :
  (nodes (build workflow new_graph)).*1 = first_declared workflow
  ∧ NoDup (first_declared workflow)
  ∧ ∀ k node, (k, node) ∈ nodes (build workflow new_graph) ↔
              last_declared k workflow = Some node.
Proof.
  assert (NoDup (nodes (build workflow new_graph)).*1) as Hnd.
  { apply build_well_keyed, new_graph_well_keyed. }
  assert ((nodes (build workflow new_graph)).*1 = first_declared workflow)
    as Hkeys.
  { induction workflow as [|n workflow IH] using rev_ind; [done|].
    rewrite build_snoc, first_declared_snoc. simpl. rewrite map_set_keys.
    rewrite IH; [done|]. apply build_well_keyed, new_graph_well_keyed. }
  split_and!; [done|by rewrite <- Hkeys|].
  clear Hkeys Hnd.
  induction workflow as [|n workflow IH] using rev_ind; intros k node.
  - simpl. split; [|done]. intros H. by apply not_elem_of_nil in H.
  - rewrite build_snoc, last_declared_snoc. simpl.
    rewrite map_set_lookup
      by apply build_well_keyed, new_graph_well_keyed.
    rewrite IH. destruct (decide (id n = k)) as [Heq|Hne]; split.
    + intros [[_ ->]|[Hk _]]; [done|]. by destruct Hk.
    + intros [= ->]. by left.
    + intros [[Hk _]|[_ H]]; [by destruct Hne|done].
    + intros H. right. split; [|done]. by intros ->.
Qed.

(** ** The score grows with each of its inputs *)



End GraphExtras.

(** * More about the orchestrator *)

Module HealingExtras.
Import Healing HealingFacts.

Section Any.
Context (respond : history → call → result value).
Context (registry : gmap string strategy).
Context (workflow : value) (context : Context).

(** X9.  Whatever the strategies and the other collaborators do,
    [autoRecover] never throws: it ends with [null], with a truthy value, or
    not at all; the strategies it attempts are the first [k] of the fixed
    chain, and it answers [null] only after attempting all four. *)
Theorem autoRecover_never_throws error w :
  ∃ k w',
    k ≤ 4
    ∧ attempted (console w') = attempted (console w) ++ take k names
    ∧ (autoRecover respond registry error workflow context w = (Ok VNull, w')
       ∧ k = 4
       ∨ (∃ v, autoRecover respond registry error workflow context w
               = (Ok v, w') ∧ truthy v = true)
       ∨ autoRecover respond registry error workflow context w = (Hang, w')).
Proof.
  apply (autoRecover_over_shape respond registry workflow context strategies
           error w).
Qed.

End Any.

Section Thrown.
Context (respond : history → call → result value).
Context (registry : gmap string strategy).
Context (makeContext : history → value → result Context).
Context (workflow : value).

(** X13.  When [executeWithSelfHealing] throws, the value thrown is the one
    [createExecutionContext] threw, with no strategy attempted and nothing
    logged, or the one its [try] block threw, after all four strategies have
    been attempted: it is never an error of a recovery strategy. *)
Theorem executeWithSelfHealing_throws_original w e w' :
  executeWithSelfHealing_call respond registry makeContext workflow w
  = (Throw e, w') →
  let w0 := {| calls := calls w ++ [createExecutionContext workflow];
               console := console w |} in
  makeContext (calls w) workflow = Throw e ∧ w' = w0
  ∨ ∃ context w1,
      makeContext (calls w) workflow = Ok context
      ∧ monitored_execution respond workflow context w0 = (Throw e, w1)
      ∧ attempted (console w') = attempted (console w1) ++ names.
Proof.
  intros Hrun w0. revert Hrun.
  unfold executeWithSelfHealing_call, newContext. sr.
  destruct (makeContext (calls w) workflow) as [context|x|]; [| |done].
  - intros Hrun. right. exists context. fold w0 in Hrun. revert Hrun.
    destruct (monitored_execution respond workflow context w0)
      as [[v|e0|] w1] eqn:Hbody.
    + unfold executeWithSelfHealing, try_catch. by rewrite Hbody.
    + unfold executeWithSelfHealing, try_catch. rewrite Hbody.
      rewrite recover_or_rethrow_unfold.
      destruct (autoRecover_over_shape respond registry workflow context
                  strategies e0
                  {| calls := calls w1;
                     console := console w1 ++ [FailureDetected] |})
        as (k & w2 & Hk & Hatt & [[Hres ->]|[(v & Hres & Hv)|Hres]]);
        fold (autoRecover respond registry e0 workflow context) in Hres;
        rewrite Hres; simpl.
      * intros [= -> ->]. exists w1. split_and!; [done|done|].
        rewrite Hatt. simpl. by rewrite attempted_snoc_other.
      * by rewrite Hv.
      * done.
    + unfold executeWithSelfHealing, try_catch. by rewrite Hbody.
  - intros [= -> <-]. by left.
Qed.

End Thrown.

Lemma executeWithSelfHealing_throws_original_down :
  ∃ context w1,
    fresh_context [] (VObject 0) = Ok context
    ∧ monitored_execution (flaky 9) (VObject 0) context
        {| calls := [createExecutionContext (VObject 0)]; console := [] |}
      = (Throw (VString "task failed"), w1).
Proof.
  eassert (executeWithSelfHealing_call (flaky 9)
             (registerRecoveryStrategies (flaky 9) ∅) fresh_context (VObject 0)
             start = (Throw (VString "task failed"), _)) as Hrun.
  { vm_compute. reflexivity. }
  destruct (executeWithSelfHealing_throws_original _ _ _ _ _ _ _ Hrun)
    as [[Hctx _]|(context & w1 & Hctx & Hbody & _)].
  - discriminate Hctx.
  - exists context, w1. split; [exact Hctx|exact Hbody].
Defined.

(** A context that cannot be made: the error leaves the call at once, with
    no line logged and no strategy attempted. *)
Lemma context_failure_escapes :
  executeWithSelfHealing_call (flaky 0)
    (registerRecoveryStrategies (flaky 0) ∅) no_context (VObject 0) start
  = (Throw (VString "invalid workflow"),
     {| calls := [createExecutionContext (VObject 0)]; console := [] |}).
Proof. reflexivity. Qed.

(** ** An orchestrator without its strategies *)

Section Unregistered.
Context (respond : history → call → result value).
Context (registry : gmap string strategy).
Context (workflow : value) (context : Context) (error : value).

Lemma attempt_unregistered name w :
  registry !! name = None →
  attempt respond registry name workflow context error w
  = (Ok None, {| calls := calls w; console := console w ++ [Attempting name] |}).
Proof.
  intros Hnone. destruct w as [h j].
  apply (attempt_falsy respond registry workflow context error name h h
           VUndefined j); [|done].
  unfold invoke, strategy in *. by rewrite Hnone.
Qed.

Lemma autoRecover_over_unregistered (l : list (string * Q)) w :
  Forall (fun n => registry !! n = None) l.*1 →
  autoRecover_over respond registry l error workflow context w
  = (Ok VNull, {| calls := calls w;
                  console := console w ++ (Attempting <$> l.*1) |}).
Proof.
  revert w. induction l as [|[name weight] l IH]; intros w Hl.
  - destruct w. simpl. by rewrite app_nil_r.
  - apply Forall_cons in Hl as [Hname Hl]. cbn [autoRecover_over]. sr.
    rewrite attempt_unregistered by done. rewrite IH by done. simpl.
    by rewrite <- app_assoc.
Qed.

(** X10.  With none of the four strategies registered ([initialize] has
    not run), [autoRecover] calls no collaborator, logs its four attempts and
    answers [null], so the [catch] block of [executeWithSelfHealing] throws
    the error again. *)
Theorem unregistered_strategies_recover_nothing w :
  Forall (fun n => registry !! n = None) names →
  autoRecover respond registry error workflow context w
  = (Ok VNull, {| calls := calls w;
                  console := console w ++ (Attempting <$> names) |})
  ∧ recover_or_rethrow respond registry workflow context error w
    = (Throw error,
       {| calls := calls w;
          console := console w ++ FailureDetected :: (Attempting <$> names) |}).
Proof.
  intros Hnone.
  assert (∀ w0, autoRecover respond registry error workflow context w0
                = (Ok VNull, {| calls := calls w0;
                                console := console w0 ++ (Attempting <$> names) |}))
    as Hauto.
  { intros w0. by apply (autoRecover_over_unregistered strategies). }
  split; [apply Hauto|].
  rewrite recover_or_rethrow_unfold, Hauto. simpl.
  by rewrite <- app_assoc.
Qed.

End Unregistered.

Lemma unregistered_strategies_recover_nothing_empty :
  recover_or_rethrow (flaky 0) ∅ (VObject 0) context0 (VString "boom") start
  = (Throw (VString "boom"),
     {| calls := []; console := [] ++ FailureDetected :: (Attempting <$> names) |}).
Proof.
  apply (unregistered_strategies_recover_nothing (flaky 0) ∅ (VObject 0)
           context0 (VString "boom") start).
  repeat constructor.
Defined.

(** ** The retry strategy, whatever happens *)

(** X11.  The first attempt of the retry strategy that succeeds, the
    [k]-th, ends the strategy with its value, after the delays of
    [2^i * 1000] ms before the attempts 0..k and without a further attempt. *)
Theorem retry_stops_at_first_success respond workflow context error k v h0 :
  sleeps_return respond → k < maxRetries →
  (∀ i, i < k → ∃ e, attempt_outcome respond workflow h0 i = Throw e) →
  attempt_outcome respond workflow h0 k = Ok v →
  exponential_backoff_retry respond workflow context error h0
  = (Ok v, h0 ++ retry_calls workflow (S k)).
Proof. apply retry_succeeds_at. Qed.

Lemma retry_stops_at_first_success_third :
  exponential_backoff_retry (flaky 2) (VObject 0) context0 (VString "boom") []
  = (Ok (VObject 1), [] ++ retry_calls (VObject 0) 3).
Proof.
  apply (retry_stops_at_first_success (flaky 2) (VObject 0) context0
           (VString "boom") 2 (VObject 1) []).
  - intros h ms. reflexivity.
  - unfold maxRetries. lia.
  - intros i Hi. do 2 (destruct i as [|i]; [eexists; vm_compute; reflexivity|]).
    lia.
  - vm_compute. reflexivity.
Defined.

Lemma tries_app h1 h2 : tries (h1 ++ h2) = tries h1 + tries h2.
Proof. unfold tries. by rewrite List.filter_app, length_app. Qed.

Lemma slept_app h1 h2 : slept (h1 ++ h2) = (slept h1 + slept h2)%Z.
Proof.
  unfold slept. induction h1 as [|c h1 IH]; simpl; [done|].
  destruct c; rewrite ?IH; lia.
Qed.

Lemma retry_loop_bound respond left i workflow h :
  ∃ more,
    (retry_loop respond left i workflow h).2 = h ++ more
    ∧ tries more ≤ left
    ∧ (slept more
       ≤ (2 ^ Z.of_nat (i + left) - 2 ^ Z.of_nat i) * 1000)%Z.
Proof.
  revert i h. induction left as [|left IH]; intros i h.
  - exists []. simpl. rewrite app_nil_r, Nat.add_0_r. split_and!; [done|done|lia].
  - assert (2 ^ Z.of_nat (i + S left) = 2 ^ Z.of_nat (S i + left))%Z as Hexp
        by (f_equal; lia).
    assert (2 ^ Z.of_nat (S i) = 2 * 2 ^ Z.of_nat i)%Z as Hsucc
        by (rewrite Nat2Z.inj_succ, Z.pow_succ_r; lia).
    assert (2 ^ Z.of_nat (S i) ≤ 2 ^ Z.of_nat (S i + left))%Z as Hmono
        by (apply Z.pow_le_mono_r; lia).
    assert (0 < 2 ^ Z.of_nat i)%Z as Hpos by (apply Z.pow_pos_nonneg; lia).
    cbn [retry_loop]. sr.
    destruct (respond h (sleep (2 ^ Z.of_nat i * 1000))) as [u|x|]; cbn [fst snd].
    + destruct (respond (h ++ [sleep (2 ^ Z.of_nat i * 1000)])
                  (executeWorkflow workflow)) as [v|x|]; cbn [fst snd].
      * exists [sleep (2 ^ Z.of_nat i * 1000); executeWorkflow workflow].
        rewrite <- app_assoc. split_and!; [done|unfold tries; simpl; lia|unfold slept; cbn [foldr]; lia].
      * case_bool_decide.
        -- exists [sleep (2 ^ Z.of_nat i * 1000); executeWorkflow workflow].
           rewrite <- app_assoc. split_and!; [done|unfold tries; simpl; lia|unfold slept; cbn [foldr]; lia].
        -- destruct (IH (S i) ((h ++ [sleep (2 ^ Z.of_nat i * 1000)])
                               ++ [executeWorkflow workflow]))
             as (more & Heq & Htries & Hslept).
           exists ([sleep (2 ^ Z.of_nat i * 1000); executeWorkflow workflow]
                   ++ more).
           rewrite Heq, <- !app_assoc. split_and!; [done| |].
           ++ rewrite tries_app. unfold tries in *. simpl. lia.
           ++ rewrite slept_app. unfold slept at 1. cbn [foldr]. lia.
      * exists [sleep (2 ^ Z.of_nat i * 1000); executeWorkflow workflow].
        rewrite <- app_assoc. split_and!; [done|unfold tries; simpl; lia|unfold slept; cbn [foldr]; lia].
    + exists [sleep (2 ^ Z.of_nat i * 1000)]. split_and!; [done|unfold tries; simpl; lia|unfold slept; cbn [foldr]; lia].
    + exists [sleep (2 ^ Z.of_nat i * 1000)]. split_and!; [done|unfold tries; simpl; lia|unfold slept; cbn [foldr]; lia].
Qed.

(** X12.  However the workflow, the timer and everything else behave, the
    retry strategy only adds calls to the history, runs the workflow at most
    five times and sleeps at most 31 seconds in all. *)
Theorem retry_at_most_five_attempts respond workflow context error h :
  ∃ more,
    (exponential_backoff_retry respond workflow context error h).2 = h ++ more
    ∧ tries more ≤ 5
    ∧ (slept more ≤ 31000)%Z.
Proof.
  destruct (retry_loop_bound respond maxRetries 0 workflow h)
    as (more & Heq & Htries & Hslept).
  exists more. split_and!; [done|done|]. exact Hslept.
Qed.

(** ** The threshold of the prediction *)

Lemma exceeds_spec q threshold :
  exceeds (VNumber q) threshold = true ↔ (threshold < q)%Q.
Proof.
  unfold exceeds. rewrite negb_true_iff, <- not_true_iff_false, Qle_bool_iff.
  split; [apply Qnot_le_lt|apply Qlt_not_le].
Qed.

(** X14.  Preventive measures are applied exactly when the predicted
    probability is above 0.7, and before the workflow is executed; at 0.7 or
    below, the call that follows the prediction is the monitored execution
    and nothing is logged. *)
Theorem preventive_measures_above_threshold respond workflow context
    h j q point action :
  respond h (predictor context) = Ok (VNumber q) →
  respond (h ++ [predictor context])
          (identifyFailurePoint context (VNumber q)) = Ok point →
  respond (h ++ [predictor context; identifyFailurePoint context (VNumber q)])
          (determineAction (VNumber q)) = Ok action →
  let prediction := {| probability := VNumber q; expectedFailurePoint := point;
                       recommendedAction := action |} in
  let predicted := h ++ [predictor context;
                         identifyFailurePoint context (VNumber q);
                         determineAction (VNumber q)] in
  let w' := (monitored_execution respond workflow context
               {| calls := h; console := j |}).2 in
  ((0.7 < q)%Q →
   ∃ rest, calls w' = predicted ++ applyPreventiveMeasures prediction :: rest
           ∧ console w' = j ++ [HighFailureProbability])
  ∧ ((q <= 0.7)%Q →
     ∃ rest, calls w'
             = predicted ++ executeWithMonitoring workflow context :: rest
             ∧ console w' = j).
Proof.
  intros Hp Hpoint Haction prediction predicted w'.
  subst w'. unfold monitored_execution, predictFailures. sr. cbn [calls console].
  rewrite Hp. cbn [calls console fst snd].
  rewrite Hpoint. rewrite <- (app_assoc h [_] [_]). cbn [app].
  rewrite Haction. rewrite <- (app_assoc h [_; _] [_]). cbn [app probability].
  fold prediction predicted.
  split; intros Hq.
  - apply exceeds_spec in Hq. rewrite Hq. cbn [calls console].
    destruct (respond predicted (applyPreventiveMeasures prediction))
      as [u|x|]; cbn [calls console fst snd].
    + destruct (respond (predicted ++ [applyPreventiveMeasures prediction])
                  (executeWithMonitoring workflow context)) as [r|x|];
        cbn [calls console fst snd].
      * destruct (respond _ (updateModel context true None)) as [u'|x|];
          cbn [calls console fst snd]; rewrite <- !app_assoc; eauto.
      * rewrite <- !app_assoc; eauto.
      * rewrite <- !app_assoc; eauto.
    + eauto.
    + eauto.
  - assert (exceeds (VNumber q) 0.7 = false) as Hex.
    { apply not_true_iff_false. rewrite exceeds_spec. by apply Qle_not_lt. }
    rewrite Hex. cbn [calls console].
    destruct (respond predicted (executeWithMonitoring workflow context))
      as [r|x|]; cbn [calls console fst snd].
    + destruct (respond _ (updateModel context true None)) as [u'|x|];
        cbn [calls console fst snd]; rewrite <- !app_assoc; eauto.
    + eauto.
    + eauto.
Qed.

Lemma preventive_measures_above_threshold_low :
  ∃ rest,
    calls (monitored_execution (flaky 0) (VObject 0) context0 start).2
    = ([] ++ [predictor context0;
              identifyFailurePoint context0 (VNumber 0.1);
              determineAction (VNumber 0.1)])
      ++ executeWithMonitoring (VObject 0) context0 :: rest
    ∧ console (monitored_execution (flaky 0) (VObject 0) context0 start).2 = [].
Proof.
  apply (proj2 (preventive_measures_above_threshold (flaky 0) (VObject 0)
                  context0 [] [] 0.1%Q (VString "unknown")
                  (VString "retry") eq_refl eq_refl eq_refl)).
  vm_compute. discriminate.
Defined.

(** ** Registering the strategies *)

(** X15.  [registerRecoveryStrategies] puts the four strategies under
    their names whatever the map held there, leaves every other entry as it
    was, and registering twice is registering once. *)
Theorem registerRecoveryStrategies_idempotent respond
    (registry : gmap string strategy) :
  registerRecoveryStrategies respond registry !! "exponential_backoff_retry"
  = Some (exponential_backoff_retry respond)
  ∧ registerRecoveryStrategies respond registry !! "checkpoint_rollback"
    = Some (checkpoint_rollback respond)
  ∧ registerRecoveryStrategies respond registry !! "alternate_path_routing"
    = Some (alternate_path_routing respond)
  ∧ registerRecoveryStrategies respond registry !! "graceful_degradation"
    = Some (graceful_degradation respond)
  ∧ (∀ n, n ∉ names →
          registerRecoveryStrategies respond registry !! n = registry !! n)
  ∧ registerRecoveryStrategies respond
      (registerRecoveryStrategies respond registry)
    = registerRecoveryStrategies respond registry.
Proof.
  unfold registerRecoveryStrategies. split_and!.
  - rewrite !lookup_insert_ne by done. by rewrite lookup_insert_eq.
  - rewrite !lookup_insert_ne by done. by rewrite lookup_insert_eq.
  - rewrite lookup_insert_ne by done. by rewrite lookup_insert_eq.
  - by rewrite lookup_insert_eq.
  - intros n Hn. unfold names in Hn.
    rewrite !lookup_insert_ne; [done|..]; intros <-; apply Hn; set_solver.
  - apply map_eq. intros n. rewrite !lookup_insert. repeat case_decide; done.
Qed.

End HealingExtras.

(** * The evolution engine *)

Module EngineFacts.
Import Healing Engine.

Ltac sr := unfold mbind, sr_bind, mret, sr_ret, try_catch, throw.

(** ** Priorities *)

Lemma greater_spec a b : greater a b = true ↔ (b < a)%Q.
Proof.
  unfold greater. rewrite negb_true_iff, <- not_true_iff_false, Qle_bool_iff.
  split; [apply Qnot_le_lt|apply Qlt_not_le].
Qed.

Lemma greater_false a b : greater a b = false ↔ (a <= b)%Q.
Proof.
  rewrite <- not_true_iff_false, greater_spec. split.
  - apply Qnot_lt_le.
  - intros H1 H2. lra.
Qed.

(** X16.  A larger gap never gets a lower priority: the score of
    [calculatePriority] grows with the gap, and lies between 1 and 4. *)
Theorem calculatePriority_monotone (gap1 gap2 : Q) :
  (gap1 <= gap2)%Q →
  (1 ≤ getPriorityScore (calculatePriority gap1)
   ≤ getPriorityScore (calculatePriority gap2))%Z
  ∧ (getPriorityScore (calculatePriority gap2) ≤ 4)%Z.
Proof.
  intros Hle. unfold calculatePriority.
  destruct (greater gap1 50) eqn:H1, (greater gap1 30) eqn:H2,
    (greater gap1 15) eqn:H3, (greater gap2 50) eqn:H4,
    (greater gap2 30) eqn:H5, (greater gap2 15) eqn:H6; simpl;
    try lia;
    rewrite ?greater_spec, ?greater_false in *; lra.
Qed.

Lemma calculatePriority_monotone_example :
  (1 ≤ getPriorityScore (calculatePriority 20)
   ≤ getPriorityScore (calculatePriority 50))%Z
  ∧ (getPriorityScore (calculatePriority 50) ≤ 4)%Z.
Proof.
  apply (calculatePriority_monotone 20 50). vm_compute. discriminate.
Defined.

(** ** [includes] *)

Lemma prefix_spec sub s :
  String.prefix sub s = true ↔ ∃ b, s = sub +:+ b.
Proof.
  revert s. induction sub as [|c sub IH]; intros s.
  - split; [intros _; by exists s|]. intros _. by destruct s.
  - destruct s as [|c' s]; simpl.
    + split; [done|]. by intros [b ?].
    + destruct (Ascii.ascii_dec c c') as [->|Hne].
      * rewrite IH. split.
        -- intros [b ->]. by exists b.
        -- intros [b Hb]. exists b. by injection Hb.
      * split; [done|]. intros [b [= ? ?]]. done.
Qed.

Lemma includes_spec s sub :
  includes s sub = true ↔ ∃ a b, s = a +:+ sub +:+ b.
Proof.
  induction s as [|c s IH]; cbn [includes].
  - destruct (String.prefix sub EmptyString) eqn:Hp.
    + split; [intros _|done]. apply prefix_spec in Hp as [b Hb].
      by exists EmptyString, b.
    + split; [done|]. intros (a & b & Hab).
      destruct a; [|done]. apply not_true_iff_false in Hp. destruct Hp.
      apply prefix_spec. by exists b.
  - destruct (String.prefix sub (String c s)) eqn:Hp.
    + split; [intros _|done]. apply prefix_spec in Hp as [b Hb].
      by exists EmptyString, b.
    + rewrite IH. split.
      * intros (a & b & ->). by exists (String c a), b.
      * intros (a & b & Hab). destruct a as [|c' a].
        -- apply not_true_iff_false in Hp. destruct Hp.
           apply prefix_spec. by exists b.
        -- injection Hab as -> ->. by exists a, b.
Qed.

(** ** Validation *)

(** X17.  [validateEvolutions] never throws.  It answers [true] exactly
    when the unit tests, the integration tests, the benchmark and the audit
    all run without error, in that order, and the output of the benchmark
    contains PASS. *)
Theorem validateEvolutions_true_iff out h :
  (∀ e, (validateEvolutions out h).1 ≠ Throw e)
  ∧ ((validateEvolutions out h).1 = Ok true ↔
     ∃ o1 o2 left right o4,
       exec out h "npm run test" = Ok o1
       ∧ exec out (h ++ [execSync "npm run test"]) "npm run test:integration"
         = Ok o2
       ∧ exec out (h ++ [execSync "npm run test";
                         execSync "npm run test:integration"])
           "npm run benchmark" = Ok (left +:+ "PASS" +:+ right)
       ∧ exec out (h ++ [execSync "npm run test";
                         execSync "npm run test:integration";
                         execSync "npm run benchmark"])
           "npm audit --audit-level=high" = Ok o4).
Proof.
  unfold validateEvolutions, run, analyzePerformance. sr. cbn [fst snd].
  destruct (exec out h "npm run test") as [o1|e1|] eqn:H1; cbn [fst snd].
  2,3: split; [done|]; split; [done|]; by intros (? & ? & ? & ? & ? & ? & _).
  rewrite <- ?app_assoc. cbn [app].
  destruct (exec out (h ++ [execSync "npm run test"])
              "npm run test:integration") as [o2|e2|] eqn:H2; cbn [fst snd].
  2,3: split; [done|]; split; [done|];
       by intros (? & ? & ? & ? & ? & _ & ? & _).
  rewrite <- ?app_assoc. cbn [app].
  destruct (exec out (h ++ [execSync "npm run test";
                            execSync "npm run test:integration"])
              "npm run benchmark") as [o3|e3|] eqn:H3; cbn [fst snd].
  2,3: split; [done|]; split; [done|];
       by intros (? & ? & ? & ? & ? & _ & _ & ? & _).
  rewrite <- ?app_assoc. cbn [app].
  destruct (exec out (h ++ [execSync "npm run test";
                            execSync "npm run test:integration";
                            execSync "npm run benchmark"])
              "npm audit --audit-level=high") as [o4|e4|] eqn:H4; cbn [fst snd].
  2,3: split; [done|]; split; [done|];
       by intros (? & ? & ? & ? & ? & _ & _ & _ & ?).
  split; [done|]. split.
  - intros [= Hinc]. apply includes_spec in Hinc as (left & right & ->).
    by exists o1, o2, left, right, o4.
  - intros (? & ? & left & right & ? & _ & _ & [= ->] & _).
    f_equal. apply includes_spec. by exists left, right.
Qed.

(** ** Deployment *)

(** X18.  [progressiveDeployment] always goes through both canary stages
    and runs the production deployment: it waits twice five minutes, then
    runs [npm run deploy:prod] and ends as that command ends; it never runs
    the rollback. *)
Theorem progressiveDeployment_always_deploys out h :
  progressiveDeployment out h
  = (match exec out (h ++ [sleep 300000; sleep 300000]) "npm run deploy:prod"
     with
     | Ok _ => Ok tt
     | Throw e => Throw e
     | Hang => Hang
     end,
     h ++ [sleep 300000; sleep 300000; execSync "npm run deploy:prod"]).
Proof.
  unfold progressiveDeployment, deployCanary, canaryHealthy, deployProduction,
    wait, run.
  sr. cbn [fst snd]. rewrite <- !app_assoc. cbn [app].
  by destruct (exec out _ "npm run deploy:prod").
Qed.

(** ** The cycle *)

(** X19.  One pass of the endless loop throws only when the rollback of
    its error path does: the last call is then [git reset --hard HEAD], and
    the value thrown is the one that command threw. *)
Theorem pass_throws_only_from_rollback out h e h' :
  pass out h = (Throw e, h') →
  ∃ h0, h' = h0 ++ [execSync "git reset --hard HEAD"]
        ∧ exec out h0 "git reset --hard HEAD" = Throw e.
Proof.
  unfold pass, try_catch.
  destruct (cycle out h) as [[u|x|] h1]; [done| |done].
  unfold rollback, wait, run. sr. cbn [fst snd].
  destruct (exec out h1 "git reset --hard HEAD") as [o|x'|] eqn:Hx;
    cbn [fst snd]; [done| |done].
  intros [= -> <-]. by exists h1.
Qed.

(** X20.  The answer of [validateEvolutions] is not looked at: when the
    first three steps of a cycle end without error, the deployment follows
    also after a validation that answered [false]. *)
Theorem deployment_ignores_validation out h h1 h2 passed :
  prepare out h = (Ok tt, h1) →
  validateEvolutions out h1 = (Ok passed, h2) →
  ∃ rest,
    (cycle out h).2
    = h2 ++ [sleep 300000; sleep 300000; execSync "npm run deploy:prod"]
         ++ rest.
Proof.
  intros Hprep Hval. unfold cycle. sr. rewrite Hprep, Hval.
  unfold progressiveDeployment, deployCanary, canaryHealthy, deployProduction,
    wait, run.
  sr. cbn [fst snd]. rewrite <- !app_assoc. cbn [app].
  destruct (exec out _ "npm run deploy:prod"); cbn [fst snd];
    rewrite <- ?app_assoc; cbn [app]; eauto.
  all: exists []; by rewrite ?app_nil_r.
Qed.

Lemma pass_throws_only_from_rollback_broken :
  ∃ h0, [benchmarkAgainstIndustry; execSync "git reset --hard HEAD"]
        = h0 ++ [execSync "git reset --hard HEAD"]
        ∧ exec broken h0 "git reset --hard HEAD"
          = Throw (VString "not a git repository").
Proof.
  apply (pass_throws_only_from_rollback broken []). vm_compute. reflexivity.
Defined.

Lemma deployment_ignores_validation_red :
  validateEvolutions red_tests [benchmarkAgainstIndustry]
  = (Ok false, [benchmarkAgainstIndustry; execSync "npm run test"])
  ∧ ∃ rest,
      (cycle red_tests []).2
      = [benchmarkAgainstIndustry; execSync "npm run test"]
        ++ [sleep 300000; sleep 300000; execSync "npm run deploy:prod"]
        ++ rest.
Proof.
  assert (validateEvolutions red_tests [benchmarkAgainstIndustry]
          = (Ok false, [benchmarkAgainstIndustry; execSync "npm run test"]))
    as Hval by (vm_compute; reflexivity).
  split; [exact Hval|].
  apply (deployment_ignores_validation red_tests [] [benchmarkAgainstIndustry]
           _ false); [vm_compute; reflexivity|exact Hval].
Defined.

(** ** The tasks of a cycle *)

Lemma createEvolutionTask_made out b h t h' :
  createEvolutionTask out b h = (Ok t, h') → made_from t b.
Proof.
  unfold createEvolutionTask, ask, now. sr. cbn [fst snd].
  destruct (message out h b); [|done|done]. by intros [= <- _].
Qed.

Lemma collect_made out bs h ts h' :
  collect out bs h = (Ok ts, h') →
  Forall2 made_from ts (List.filter fixable bs).
Proof.
  revert h ts h'. induction bs as [|b bs IH]; intros h ts h'; simpl.
  - intros [= <- _]. constructor.
  - destruct (fixable b) eqn:Hb; [|apply IH].
    sr. destruct (createEvolutionTask out b h) as [[t|e|] h1] eqn:Ht;
      [|done|done].
    destruct (collect out bs h1) as [[ts'|e|] h2] eqn:Hts; [|done|done].
    intros [= <- _]. constructor; [by eapply createEvolutionTask_made|].
    by eapply IH.
Qed.

Lemma engine_sort_insert_perm x l : Engine.sort_insert x l ≡ₚ x :: l.
Proof.
  induction l as [|y ys IH]; simpl; [done|].
  destruct (0 <? byScore x y)%Z; [|done]. rewrite IH. apply Permutation_swap.
Qed.

Lemma engine_sort_perm l : Engine.sort l ≡ₚ l.
Proof.
  induction l as [|x l IH]; simpl; [done|].
  by rewrite engine_sort_insert_perm, IH.
Qed.

Lemma engine_sort_insert_sorted x l :
  StronglySorted (fun a b => (score b ≤ score a)%Z) l →
  StronglySorted (fun a b => (score b ≤ score a)%Z) (Engine.sort_insert x l).
Proof.
  induction 1 as [|y ys Hys IH Hy]; simpl.
  - repeat constructor.
  - destruct (0 <? byScore x y)%Z eqn:Hcmp.
    + apply Z.ltb_lt in Hcmp. unfold byScore in Hcmp.
      constructor; [done|]. rewrite engine_sort_insert_perm.
      constructor; [unfold score; lia|done].
    + apply Z.ltb_ge in Hcmp. unfold byScore in Hcmp.
      constructor; [by constructor|]. constructor; [unfold score; lia|].
      eapply Forall_impl; [exact Hy|]. intros z Hz. simpl in Hz.
      unfold score in *. lia.
Qed.

Lemma engine_sort_sorted l :
  StronglySorted (fun a b => (score b ≤ score a)%Z) (Engine.sort l).
Proof.
  induction l as [|x l IH]; simpl; [constructor|].
  by apply engine_sort_insert_sorted.
Qed.

Lemma fixable_not_low b : fixable b = true → calculatePriority (gap b) ≠ low.
Proof.
  unfold fixable, calculatePriority. intros [Hgap _]%andb_true_iff.
  apply greater_spec in Hgap.
  destruct (greater (gap b) 50); [done|].
  destruct (greater (gap b) 30); [done|].
  destruct (greater (gap b) 15) eqn:H15; [done|].
  apply greater_false in H15. lra.
Qed.

(** X21.  The tasks that [generateEvolutionTasks] returns are as many as
    the benchmarks with a gap above 20 that are auto-fixable; each is derived
    from such a benchmark, none has the priority low, and they are ordered by
    priority, the most urgent first. *)
Theorem generateEvolutionTasks_urgent_first out bs h tasks h' :
  generateEvolutionTasks out bs h = (Ok tasks, h') →
  length tasks = length (List.filter fixable bs)
  ∧ Forall (fun t => priority t ≠ low
                     ∧ ∃ b, b ∈ bs ∧ fixable b = true ∧ made_from t b) tasks
  ∧ StronglySorted (fun a b => (score b ≤ score a)%Z) tasks.
Proof.
  unfold generateEvolutionTasks. sr.
  destruct (collect out bs h) as [[ts|e|] h1] eqn:Hts; [|done|done].
  intros [= <- _]. apply collect_made in Hts. split_and!.
  - rewrite (Permutation_length (engine_sort_perm ts)).
    by eapply Forall2_length.
  - apply Forall_forall. intros t Ht.
    pose proof (engine_sort_perm ts) as Hperm. rewrite Hperm in Ht.
    apply list_elem_of_lookup in Ht as [i Hi].
    destruct (Forall2_lookup_l _ _ _ _ _ Hts Hi) as (b & Hb & Hmade).
    apply list_elem_of_lookup_2, list_elem_of_In, filter_In in Hb as [Hb Hfix].
    split.
    + destruct Hmade as [-> _]. by apply fixable_not_low.
    + exists b. by rewrite list_elem_of_In.
  - apply engine_sort_sorted.
Qed.

Lemma generateEvolutionTasks_urgent_first_green :
  ∃ tasks h',
    generateEvolutionTasks green
      [benchmark0 "api latency" 25 true; benchmark0 "docs" 80 false;
       benchmark0 "security audit" 60 true] [] = (Ok tasks, h')
    ∧ length tasks = 2
    ∧ (priority <$> tasks) = [critical; medium].
Proof.
  eassert (generateEvolutionTasks green
             [benchmark0 "api latency" 25 true; benchmark0 "docs" 80 false;
              benchmark0 "security audit" 60 true] [] = (Ok _, _)) as Hrun.
  { vm_compute. reflexivity. }
  eexists _, _. split; [exact Hrun|]. split; [|reflexivity].
  exact (proj1 (generateEvolutionTasks_urgent_first _ _ _ _ _ Hrun)).
Defined.

(** ** Carrying out the tasks *)

Lemma quiet_ret {A} (a : A) : quiet (mret a : E A).
Proof. intros h. exists []. by rewrite app_nil_r. Qed.

Lemma quiet_bind {A B} (m : E A) (f : A → E B) :
  quiet m → (∀ a, quiet (f a)) → quiet (m ≫= f).
Proof.
  intros Hm Hf h. destruct (Hm h) as (more & Heq & Hmore).
  sr. destruct (m h) as [[a|e|] h1]; simpl in *; subst h1; [|by eauto..].
  destruct (Hf a (h ++ more)) as (more' & Heq' & Hmore').
  exists (more ++ more'). rewrite Heq', <- app_assoc. split; [done|].
  by rewrite List.filter_app, Hmore, Hmore'.
Qed.

Lemma quiet_try {A} (m : E A) (handler : value → E A) :
  quiet m → (∀ e, quiet (handler e)) → quiet (try_catch m handler).
Proof.
  intros Hm Hf h. destruct (Hm h) as (more & Heq & Hmore).
  unfold try_catch. destruct (m h) as [[a|e|] h1]; simpl in *; subst h1;
    [by eauto| |by eauto].
  destruct (Hf e (h ++ more)) as (more' & Heq' & Hmore').
  exists (more ++ more'). rewrite Heq', <- app_assoc. split; [done|].
  by rewrite List.filter_app, Hmore, Hmore'.
Qed.

Lemma quiet_run out command :
  is_branch (execSync command) = false → quiet (run out command).
Proof.
  intros Hc h. exists [execSync command]. split; [done|].
  cbn [List.filter]. by rewrite Hc.
Qed.

Lemma quiet_write_blocks out blocks : quiet (write_blocks out blocks).
Proof.
  induction blocks as [|[path code] blocks IH]; [apply quiet_ret|].
  cbn [write_blocks]. apply quiet_bind.
  { intros h. by exists [mkdir (repoRoot out) path]. }
  intros _. apply quiet_bind; [|by intros _].
  intros h. by exists [writeFile (repoRoot out) path code].
Qed.

Lemma quiet_on_branch out t branch : quiet (on_branch out t branch).
Proof.
  apply quiet_bind; [apply quiet_write_blocks|]. intros _.
  apply quiet_bind.
  { apply quiet_try; [|intros; apply quiet_ret].
    apply quiet_bind; [by apply quiet_run|intros; apply quiet_ret]. }
  intros [].
  - repeat (apply quiet_bind; [by apply quiet_run|intros _]). apply quiet_ret.
  - repeat (apply quiet_bind; [by apply quiet_run|intros _]). apply quiet_ret.
Qed.

Lemma evolve_unfold out t h :
  evolve out t h
  = match exec out h ("git checkout -b auto-evolution/" +:+ id t) with
    | Ok _ => on_branch out t ("auto-evolution/" +:+ id t) (h ++ [branch_of t])
    | Throw e => (Throw e, h ++ [branch_of t])
    | Hang => (Hang, h ++ [branch_of t])
    end.
Proof.
  unfold evolve, createBranch, run. sr. cbn [fst snd].
  change ("git checkout -b " +:+ "auto-evolution/" +:+ id t)
    with ("git checkout -b auto-evolution/" +:+ id t).
  by destruct (exec out h _).
Qed.

Lemma swallowed (m : E unit) h :
  (try_catch m (fun _ => mret tt) h).2 = (m h).2
  ∧ ∀ e, (try_catch m (fun _ => mret tt) h).1 ≠ Throw e.
Proof. unfold try_catch. by destruct (m h) as [[[]|e|] h1]. Qed.

(** What one task adds to the history: its branch first, and no other. *)
Lemma evolve_branch out t h :
  ∃ more,
    (try_catch (evolve out t) (fun _ => mret tt) h).2 = h ++ branch_of t :: more
    ∧ List.filter is_branch more = []
    ∧ ∀ e, (try_catch (evolve out t) (fun _ => mret tt) h).1 ≠ Throw e.
Proof.
  destruct (swallowed (evolve out t) h) as [-> Hno].
  rewrite evolve_unfold.
  destruct (exec out h _) as [o|e|].
  - destruct (quiet_on_branch out t ("auto-evolution/" +:+ id t)
                (h ++ [branch_of t])) as (more & -> & Hmore).
    exists more. by rewrite <- app_assoc.
  - by exists [].
  - by exists [].
Qed.

(** X22.  [executeEvolutionTasks] never throws, whatever fails on the way,
    and only adds to the history; when it returns, every task has had its
    branch created, one branch per task and in the order of the tasks. *)
Theorem executeEvolutionTasks_attempts_every_task out tasks h :
  ∃ more,
    (executeEvolutionTasks out tasks h).2 = h ++ more
    ∧ (∀ e, (executeEvolutionTasks out tasks h).1 ≠ Throw e)
    ∧ ((executeEvolutionTasks out tasks h).1 = Ok tt →
       List.filter is_branch more = branch_of <$> tasks).
Proof.
  revert h. induction tasks as [|t tasks IH]; intros h.
  - exists []. simpl. by rewrite app_nil_r.
  - destruct (evolve_branch out t h) as (more1 & Heq1 & Hmore1 & Hno1).
    cbn [executeEvolutionTasks]. unfold mbind, sr_bind.
    destruct (try_catch (evolve out t) (fun _ => mret tt) h)
      as [[[]|e|] h1]; cbn [fst snd] in *; subst h1; cbv beta iota.
    + destruct (IH (h ++ branch_of t :: more1)) as (more & Heq & Hno & Hall).
      exists (branch_of t :: more1 ++ more).
      split_and!; [by rewrite Heq, <- app_assoc|exact Hno|].
      intros Hok. cbn [List.filter is_branch branch_of].
      change (String.prefix "git checkout -b "
                ("git checkout -b auto-evolution/" +:+ id t)) with true.
      cbn [fmap list_fmap]. f_equal.
      rewrite List.filter_app, Hmore1. by apply Hall.
    + by destruct (Hno1 e).
    + exists (branch_of t :: more1). split_and!; done.
Qed.

(** X23.  Once the changes of a task are written, the tests decide: when
    [npm test] throws, the next call checks out main and at most the
    deletion of the branch follows, with nothing added, committed or pushed;
    when it succeeds, the next call is [git add .], followed by at most the
    commit and the push. *)
Theorem tests_decide_commit out t branch h h1 :
  applyChanges out t h = (Ok tt, h1) →
  (∀ e, exec out h1 "npm test" = Throw e →
        ∃ tail,
          (on_branch out t branch h).2
          = h1 ++ execSync "npm test" :: execSync "git checkout main" :: tail
          ∧ (tail = [] ∨ tail = [execSync ("git branch -D " +:+ branch)]))
  ∧ (∀ o, exec out h1 "npm test" = Ok o →
          ∃ tail,
            (on_branch out t branch h).2
            = h1 ++ execSync "npm test" :: execSync "git add ." :: tail
            ∧ ∃ n, tail
                   = take n [execSync ("git commit -m " +:+ quote
                                       +:+ "Auto-evolution: "
                                       +:+ description t +:+ quote);
                             execSync ("git push origin " +:+ branch)]).
Proof.
  intros Happly. unfold on_branch. sr. rewrite Happly.
  unfold runTests, commitChanges, rollbackBranch, run. sr. cbn [fst snd].
  split.
  - intros e ->. cbn [fst snd].
    destruct (exec out _ "git checkout main") as [o|x|]; cbn [fst snd].
    + destruct (exec out _ ("git branch -D " +:+ branch)) as [o'|x|];
        cbn [fst snd]; rewrite <- !app_assoc; eauto.
    + rewrite <- !app_assoc; eauto.
    + rewrite <- !app_assoc; eauto.
  - intros o ->. cbn [fst snd].
    destruct (exec out _ "git add .") as [o1|x|]; cbn [fst snd].
    + destruct (exec out _ ("git commit -m " +:+ _)) as [o2|x|]; cbn [fst snd].
      * exists [execSync ("git commit -m " +:+ quote +:+ "Auto-evolution: "
                          +:+ description t +:+ quote);
                execSync ("git push origin " +:+ branch)].
        split; [|by exists 2].
        by destruct (exec out _ ("git push origin " +:+ branch));
          cbn [fst snd]; rewrite <- !app_assoc.
      * eexists. rewrite <- !app_assoc. split; [done|]. by exists 1.
      * eexists. rewrite <- !app_assoc. split; [done|]. by exists 1.
    + eexists. rewrite <- !app_assoc. split; [done|]. by exists 0.
    + eexists. rewrite <- !app_assoc. split; [done|]. by exists 0.
Qed.

Lemma tests_decide_commit_green :
  ∃ tail,
    (on_branch green
       {| id := "evolution_1"; type := security; priority := critical;
          description := "Upgrade security audit"; implementation := "plan";
          testStrategy := "Generated from AI" |}
       "auto-evolution/evolution_1" []).2
    = [mkdir "/repo" "src/a.ts"; writeFile "/repo" "src/a.ts" "code"]
      ++ execSync "npm test" :: execSync "git add ." :: tail.
Proof.
  destruct (proj2 (tests_decide_commit green
                     {| id := "evolution_1"; type := security;
                        priority := critical;
                        description := "Upgrade security audit";
                        implementation := "plan";
                        testStrategy := "Generated from AI" |}
                     "auto-evolution/evolution_1" []
                     [mkdir "/repo" "src/a.ts";
                      writeFile "/repo" "src/a.ts" "code"] eq_refl)
              "ok" eq_refl) as (tail & Heq & _).
  by exists tail.
Defined.

(** ** The directory structure *)

Lemma entry_induction (P : entry → Prop) :
  P File →
  (∀ items, Forall (fun x => P x.2) items → P (Directory items)) →
  ∀ e, P e.
Proof.
  intros HFile HDir. fix IH 1. intros [|items]; [exact HFile|].
  apply HDir. induction items as [|[item e] items IHitems]; constructor.
  - apply IH.
  - exact IHitems.
Qed.

Lemma describe_directory items depth :
  describe (Directory items) depth
  = if bool_decide (3 < depth) then Null
    else Object (omap (fun x => if skipped x.1 then None
                                else Some (x.1, describe x.2 (S depth)))
                      items).
Proof.
  cbn [describe]. case_bool_decide; [done|]. f_equal.
  induction items as [|[item e] items IH]; [done|]. cbn [omap list_omap fst snd].
  destruct (skipped item); [done|]. by rewrite IH.
Qed.

Lemma describe_shape e depth :
  all_names (fun name => negb (skipped name)) (describe e depth) = true
  ∧ height (describe e depth) ≤ 4 - depth.
Proof.
  revert depth. induction e as [|items IH] using entry_induction;
    intros depth; [split; [done|simpl; lia]|].
  rewrite describe_directory. case_bool_decide; [split; [done|simpl; lia]|].
  cbn [all_names height].
  induction items as [|[item e] items IHitems]; [split; [done|simpl; lia]|].
  apply Forall_cons in IH as [He IH]. destruct (IHitems IH) as [Hnames Hheight].
  cbn [fst snd] in He.
  cbn [omap list_omap fst snd]. destruct (skipped item) eqn:Hs; [done|].
  destruct (He (S depth)) as [Hn Hh]. cbn [forallb foldr fst snd].
  rewrite Hs, Hn, Hnames. split; [done|]. simpl in *. lia.
Qed.

(** X24.  [getDirectoryStructure] never lists an entry whose name starts
    with a dot or is node_modules, at any level, and what it returns nests
    objects at most [4 - depth] deep: below that level a directory shows as
    [null]. *)
Theorem getDirectoryStructure_shape items depth :
  all_names (fun name => negb (skipped name))
    (getDirectoryStructure items depth) = true
  ∧ height (getDirectoryStructure items depth) ≤ 4 - depth.
Proof. apply describe_shape. Qed.

Lemma describe_mirror e depth :
  clean e = true → nesting e + depth ≤ 4 → describe e depth = mirror e.
Proof.
  revert depth. induction e as [|items IH] using entry_induction;
    intros depth Hclean Hdeep; [done|].
  rewrite describe_directory. cbn [nesting] in Hdeep.
  rewrite bool_decide_eq_false_2 by lia. cbn [mirror clean] in *. f_equal.
  induction items as [|[item e] items IHitems]; [done|].
  apply Forall_cons in IH as [He IH]. cbn [forallb foldr fst snd] in *.
  cbn [fst snd] in He.
  apply andb_true_iff in Hclean as [[Hs Hce]%andb_true_iff Hclean].
  apply negb_true_iff in Hs. cbn [omap list_omap map fst snd]. rewrite Hs.
  rewrite He by (done || lia). f_equal. apply IHitems; [done|done|lia].
Qed.

Lemma plain_clean e : plain e = true → clean e = true.
Proof.
  induction e as [|items IH] using entry_induction; [done|].
  cbn [plain clean]. intros [_ Hall]%andb_true_iff.
  induction items as [|[item e] items IHitems]; [done|].
  apply Forall_cons in IH as [He IH]. cbn [forallb fst snd] in *.
  apply andb_true_iff in Hall as [[[Hs _]%andb_true_iff Hp]%andb_true_iff Hall].
  rewrite Hs, (He Hp). simpl. by apply IHitems.
Qed.

(** X25.  For a tree that can be read, in which no name starts with a dot,
    is node_modules or __proto__, or is made of digits only, and whose
    directories nest at most [4 - depth] deep, [getDirectoryStructure] shows
    the whole tree, every file and every directory, in the order of the
    listings. *)
Theorem getDirectoryStructure_shows_shallow_trees items depth :
  plain (Directory items) = true →
  nesting (Directory items) + depth ≤ 4 →
  getDirectoryStructure items depth = mirror (Directory items).
Proof. intros Hplain. by apply describe_mirror, plain_clean. Qed.

Lemma getDirectoryStructure_shows_shallow_trees_src :
  getDirectoryStructure
    [("a.ts", File); ("lib", Directory [("b.ts", File)])] 0
  = Object [("a.ts", FileMark); ("lib", Object [("b.ts", FileMark)])].
Proof.
  apply (getDirectoryStructure_shows_shallow_trees
           [("a.ts", File); ("lib", Directory [("b.ts", File)])] 0).
  - vm_compute. reflexivity.
  - simpl. lia.
Defined.

(** The example repository: the hidden directory and node_modules are
    left out. *)
Example getDirectoryStructure_repo :
  getDirectoryStructure repo 0
  = Object [("src", Object [("a.ts", FileMark);
                            ("lib", Object [("b.ts", FileMark)])]);
            ("package.json", FileMark)].
Proof. reflexivity. Qed.

End EngineFacts.
